(** * Manual-Simplifier: the ingestion and retrieval pipeline of the server

    A shallow embedding of the server module of the repository (the file
    that defines [vectorStore], [processChunksInBatches],
    [mergeProcessedChunks] and the [/upload], [/api/gemini] and [/search]
    handlers), and the properties of it that the specification states.

    Conventions of the embedding.
    - JavaScript strings are [string]s; case mapping and white space are
      those of ASCII.
    - JavaScript numbers are the type [number]: exact rationals extended
      with [NaN] and the two infinities.  The rounding of binary64 and the
      sign of zero are not represented.
    - A JavaScript object used as a record of properties is a
      [gmap string _]; an array is a [list].
    - A function that can throw returns a [completion]. *)

From Stdlib Require Import Ascii String QArith Lqa.
From stdpp Require Import gmap strings list fin_maps pretty sorting.

Local Close Scope Q_scope.
Set Warnings "-clear-no-such-hyp".

(** ** Completions: a value or a thrown exception *)

Inductive exn :=
  | SyntaxError (message : string)
  | TypeError (message : string)
  | Error (message : string).

Definition message_of (e : exn) : string :=
  match e with SyntaxError m | TypeError m | Error m => m end.

Inductive completion (A : Type) :=
  | Normal (a : A)
  | Throw (e : exn).
Arguments Normal {A} a.
Arguments Throw {A} e.

#[global] Instance completion_ret : MRet completion := λ A, Normal.
#[global] Instance completion_bind : MBind completion := λ A B k c,
  match c with Normal a => k a | Throw e => Throw e end.

(** [forEach] with a body that can throw, threading the variable the body
    assigns to. *)
Fixpoint forEach {A S} (l : list A) (body : S → A → completion S) (s : S)
  : completion S :=
  match l with
  | [] => Normal s
  | x :: l' => s' ← body s x; forEach l' body s'
  end.

(** ** Strings *)

Module JsString.

Definition lower_char (c : ascii) : ascii :=
  let n := nat_of_ascii c in
  if ((65 <=? n) && (n <=? 90))%nat then ascii_of_nat (n + 32) else c.

(** [s.toLowerCase()] *)
Fixpoint toLowerCase (s : string) : string :=
  match s with
  | EmptyString => EmptyString
  | String c r => String (lower_char c) (toLowerCase r)
  end.

(** [s.split(sep)] for a separator of one character. *)
Fixpoint split (sep : ascii) (s : string) : list string :=
  match s with
  | EmptyString => [EmptyString]
  | String c r =>
      if Ascii.eqb c sep then EmptyString :: split sep r
      else match split sep r with
           | w :: ws => String c w :: ws
           | [] => [String c EmptyString]
           end
  end.

(** [text.includes(term)] *)
Fixpoint includes (text term : string) : bool :=
  String.prefix term text
  || match text with
     | EmptyString => false
     | String _ r => includes r term
     end.

Definition is_space (c : ascii) : bool :=
  let n := nat_of_ascii c in
  ((n =? 32) || ((9 <=? n) && (n <=? 13)))%nat.

Fixpoint trimStart (s : string) : string :=
  match s with
  | String c r => if is_space c then trimStart r else s
  | EmptyString => EmptyString
  end.

Fixpoint trimEnd (s : string) : string :=
  match s with
  | EmptyString => EmptyString
  | String c r =>
      match trimEnd r with
      | EmptyString => if is_space c then EmptyString else String c EmptyString
      | r' => String c r'
      end
  end.

(** [s.trim()] *)
Definition trim (s : string) : string := trimEnd (trimStart s).

(** [s.split(/\s+/)]: the tokens of [s] between runs of white space, the
    tokenization the specification describes.  [cur] is the token being
    read, reversed. *)
Fixpoint words_from (cur : list ascii) (s : string) : list string :=
  match s with
  | EmptyString => [string_of_list_ascii (rev cur)]
  | String c r =>
      if is_space c then
        match r with
        | String c' _ =>
            if is_space c' then words_from cur r
            else string_of_list_ascii (rev cur) :: words_from [] r
        | EmptyString => [string_of_list_ascii (rev cur); EmptyString]
        end
      else words_from (c :: cur) r
  end.

Definition split_whitespace (s : string) : list string := words_from [] s.

End JsString.

(** ** Numbers *)

Module JsNumber.

Inductive number :=
  | NaN
  | Infinity (negative : bool)
  | Finite (q : Q).

Definition of_nat (n : nat) : number := Finite (inject_Z (Z.of_nat n)).

Definition Qneg (q : Q) : bool := negb (Qle_bool 0 q).
Definition Qzero (q : Q) : bool := Qeq_bool q 0.

Definition opp (x : number) : number :=
  match x with
  | NaN => NaN
  | Infinity s => Infinity (negb s)
  | Finite q => Finite (Qopp q)
  end.

Definition add (x y : number) : number :=
  match x, y with
  | NaN, _ | _, NaN => NaN
  | Infinity s, Infinity s' => if Bool.eqb s s' then Infinity s else NaN
  | Infinity s, Finite _ | Finite _, Infinity s => Infinity s
  | Finite p, Finite q => Finite (Qplus p q)
  end.

Definition sub (x y : number) : number := add x (opp y).

Definition mul (x y : number) : number :=
  match x, y with
  | NaN, _ | _, NaN => NaN
  | Infinity s, Infinity s' => Infinity (xorb s s')
  | Infinity s, Finite q | Finite q, Infinity s =>
      if Qzero q then NaN else Infinity (xorb s (Qneg q))
  | Finite p, Finite q => Finite (Qmult p q)
  end.

Definition div (x y : number) : number :=
  match x, y with
  | NaN, _ | _, NaN => NaN
  | Infinity _, Infinity _ => NaN
  | Infinity s, Finite q => Infinity (xorb s (Qneg q))
  | Finite _, Infinity _ => Finite 0
  | Finite p, Finite q =>
      if Qzero q then (if Qzero p then NaN else Infinity (Qneg p))
      else Finite (Qdiv p q)
  end.

(** [x > 0], false of [NaN]. *)
Definition positive (x : number) : bool :=
  match x with
  | NaN => false
  | Infinity s => negb s
  | Finite q => negb (Qle_bool q 0)
  end.

Definition half : number := Finite (1 # 2).

Definition is_finite (x : number) : bool :=
  match x with Finite _ => true | _ => false end.

(** Equality of the values two numbers denote: [NaN] apart, the
    comparison [===]. *)
Definition same (x y : number) : Prop :=
  match x, y with
  | NaN, NaN => True
  | Infinity s, Infinity s' => s = s'
  | Finite p, Finite q => Qeq p q
  | _, _ => False
  end.

(** [x >= y] between finite numbers. *)
Definition geq (x y : number) : Prop :=
  match x, y with
  | Finite p, Finite q => Qle q p
  | _, _ => False
  end.

End JsNumber.

(** ** Arrays *)

Module JsArray.
Import JsNumber.

Section Sort.
Context {A : Type} (comparefn : A → A → number).

(** [x] is placed before the first element it does not have to follow:
    elements that compare equal keep their order. *)
Fixpoint insert (x : A) (l : list A) : list A :=
  match l with
  | [] => [x]
  | y :: l' => if positive (comparefn x y) then y :: insert x l' else x :: l
  end.

(** [l.sort(comparefn)].  The language requires the sort to be stable,
    so for a comparison that orders the elements consistently the
    result is the one of any stable sort; insertion is the one used
    here. *)
Definition sort (l : list A) : list A := foldr insert [] l.
End Sort.

(** [l.slice(from, to)] for indices that are counts. *)
Definition slice {A} (from to : nat) (l : list A) : list A :=
  take (to - from) (drop from l).

End JsArray.

(** ** Regular expressions *)

(** The regular-expression engine of the host.  Two fragments of the
    pattern language are spelled out below: patterns made of ordinary
    characters only, which match themselves, and the early error of a
    quantifier with nothing to repeat.  On every other pattern the engine
    is the parameter [host_match_count]: the number of matches of a global
    search, or the exception of the constructor. *)
Class RegExpHost := host_match_count : string → string → completion nat.

Module RegExp.

(** The [SyntaxCharacter]s of the pattern grammar. *)
Definition syntax_char (c : ascii) : bool :=
  existsb (Ascii.eqb c) (list_ascii_of_string "^$\.*+?()[]{}|").

Definition quantifier_char (c : ascii) : bool :=
  existsb (Ascii.eqb c) (list_ascii_of_string "*+?").

Definition literal (pattern : string) : bool :=
  forallb (λ c, negb (syntax_char c)) (list_ascii_of_string pattern).

(** The matches of a literal pattern in a global search: after a match
    the search resumes behind it, [skip] characters further. *)
Fixpoint count_from (skip : nat) (pattern text : string) : nat :=
  match text with
  | EmptyString =>
      match skip, pattern with 0, EmptyString => 1 | _, _ => 0 end
  | String _ rest =>
      match skip with
      | S k => count_from k pattern rest
      | 0 =>
          if String.prefix pattern text
          then S (count_from (String.length pattern - 1) pattern rest)
          else count_from 0 pattern rest
      end
  end.

Inductive position := AtStart | AfterAtom | AfterQuantifier.

(** Whether a quantifier of [pattern] has no atom before it, in a pattern
    of ordinary characters and the quantifiers [*], [+] and [?]. *)
Fixpoint misplaced_quantifier (at_ : position) (pattern : string) : bool :=
  match pattern with
  | EmptyString => false
  | String c rest =>
      if quantifier_char c then
        match at_ with
        | AfterAtom => misplaced_quantifier AfterQuantifier rest
        | AfterQuantifier =>
            if Ascii.eqb c "?" then misplaced_quantifier AtStart rest else true
        | AtStart => true
        end
      else misplaced_quantifier AfterAtom rest
  end.

Definition nothing_to_repeat (pattern : string) : bool :=
  forallb (λ c, negb (syntax_char c) || quantifier_char c)
          (list_ascii_of_string pattern)
  && misplaced_quantifier AtStart pattern.

(** [(text.match(new RegExp(pattern, 'g')) || []).length] *)
Definition match_count `{RegExpHost} (pattern text : string) : completion nat :=
  if literal pattern then Normal (count_from 0 pattern text)
  else if nothing_to_repeat pattern
  then Throw (SyntaxError "Invalid regular expression: Nothing to repeat")
  else host_match_count pattern text.

End RegExp.

(** ** Configuration *)

Definition CHUNK_SIZE : nat := 2000.
Definition CHUNK_OVERLAP : nat := 200.
Definition MAX_RETRIES : nat := 3.
Definition RETRY_DELAY : N := 2000.
Definition RATE_LIMIT_DELAY : N := 5000.
Definition BATCH_SIZE : nat := 2.

(** ** The vector store *)

Module VectorStore.
Import JsString JsNumber.

(** A stored chunk.  [oid] is the identity of the object: [indexOf]
    compares chunk objects by identity, not by their properties. *)
Record chunk := Chunk {
  oid : nat;
  text : string;
  page : nat;
  embedding : list number;
}.

Record metadata := Metadata {
  currentFileName : string;
  pageCount : nat;
  totalChunks : nat;
}.

(** The store; [fresh] is the identity the next allocated chunk gets. *)
Record t := Store {
  chunks : list chunk;
  embeddings : list (list number);
  meta : metadata;
  fresh : nat;
}.

Definition no_metadata : metadata :=
  {| currentFileName := ""; pageCount := 0; totalChunks := 0 |}.

(** The store as the module creates it. *)
Definition initial : t :=
  {| chunks := []; embeddings := []; meta := no_metadata; fresh := 0 |}.

Definition addChunk (chunk_text : string) (emb : list number) (pageNum : nat)
    (this : t) : t :=
  {| chunks := this.(chunks) ++
               [ {| oid := this.(fresh); text := chunk_text; page := pageNum;
                    embedding := emb |} ];
     embeddings := this.(embeddings) ++ [emb];
     meta := this.(meta);
     fresh := S this.(fresh) |}.

Definition clear (this : t) : t :=
  {| chunks := []; embeddings := []; meta := no_metadata;
     fresh := this.(fresh) |}.

(** The intermediate objects of [search] and its results. *)
Record scored := Scored { s_chunk : string; s_page : nat; s_score : number }.
Record hit := Hit { h_text : string; h_page : nat; h_score : number }.

(** [l.indexOf(c)]: the first position holding the object [c], or -1. *)
Fixpoint indexOf_from (i : nat) (l : list chunk) (c : chunk) : Z :=
  match l with
  | [] => (-1)%Z
  | x :: l' =>
      if (x.(oid) =? c.(oid))%nat then Z.of_nat i else indexOf_from (S i) l' c
  end.
Definition indexOf := indexOf_from 0.

Definition searchTerms (query : string) : list string :=
  List.filter (λ term, (2 <? String.length term)%nat)
              (split " " (toLowerCase query)).

Section Search.
Context `{RegExpHost}.

(** The callback of [this.chunks.map] in [search]. *)
Definition score_chunk (all : list chunk) (terms : list string) (c : chunk)
  : completion scored :=
  let text := toLowerCase c.(text) in
  (* term frequency *)
  score ← forEach terms
            (λ score term,
               termCount ← RegExp.match_count term text;
               Normal (add score (of_nat termCount)))
            (of_nat 0);
  (* share of the terms the chunk contains *)
  let uniqueTermsFound := length (List.filter (includes text) terms) in
  let score := mul score (div (of_nat uniqueTermsFound) (of_nat (length terms))) in
  (* the chunk before this one *)
  let chunkIndex := indexOf all c in
  score ←
    (if (0 <? chunkIndex)%Z then
       match all !! Z.to_nat (chunkIndex - 1) with
       | Some prev =>
           let prevChunk := toLowerCase prev.(VectorStore.text) in
           forEach terms
             (λ score term,
                Normal (if includes prevChunk term then add score half
                        else score))
             score
       | None => Throw (TypeError "Cannot read properties of undefined")
       end
     else Normal score);
  Normal {| s_chunk := c.(VectorStore.text); s_page := c.(page); s_score := score |}.

Definition by_score_descending (a b : scored) : number :=
  sub b.(s_score) a.(s_score).

(** The array [scoredChunks] of [search]. *)
Definition scoredChunks (this : t) (query : string) : completion (list scored) :=
  let terms := searchTerms query in
  mapM (score_chunk this.(chunks) terms) this.(chunks).

(** The callback of the last [map] of [search]. *)
Definition as_hit (item : scored) : hit :=
  {| h_text := item.(s_chunk); h_page := item.(s_page);
     h_score := item.(s_score) |}.

Definition ranked (scoredChunks : list scored) (topK : nat) : list hit :=
  map as_hit
    (JsArray.slice 0 topK
       (JsArray.sort by_score_descending
          (List.filter (λ item, positive item.(s_score)) scoredChunks))).

Definition search (this : t) (query : string) (topK : nat)
  : completion (list hit) :=
  scoredChunks ← scoredChunks this query;
  Normal (ranked scoredChunks topK).

End Search.

(** A hit with its text in lower case. *)
Definition folded (h : hit) : hit :=
  {| h_text := toLowerCase h.(h_text); h_page := h.(h_page);
     h_score := h.(h_score) |}.

(** Whether the score of a hit is the rational [q]. *)
Definition score_is (q : Q) (h : hit) : bool :=
  match h.(h_score) with Finite p => Qeq_bool p q | _ => false end.

(** The default of the parameter [topK]. *)
Definition default_topK : nat := 5.

(** The chunk object the [i]-th call of [addChunk] on the initial store
    creates. *)
Definition chunk_at (emb : string → list number) (i : nat) (e : string * nat)
  : chunk :=
  {| oid := i; text := e.1; page := e.2; embedding := emb e.1 |}.

(** The store after the chunks [entries] (text and page) were added to
    the initial store, each with the embedding [emb] computes. *)
Definition stored (emb : string → list number) (entries : list (string * nat)) : t :=
  foldl (λ s e, addChunk e.1 (emb e.1) e.2 s) initial entries.

End VectorStore.

(** A host whose engine rejects every pattern outside the two fragments
    of [RegExp]; the examples that use it never reach the engine. *)
Definition strict_host : RegExpHost :=
  λ _ _, Throw (SyntaxError "Invalid regular expression").

Definition no_embedding : string → list JsNumber.number := λ _, [].

(** ** JSON values *)

Module Json.

(** The value of a property of an extraction result: the service is
    asked for arrays of strings. *)
Inductive property :=
  | PString (s : string)
  | PArray (items : list string).

(** What [JSON.parse] returns. *)
Inductive value :=
  | Null
  | Bool (b : bool)
  | Number (n : Z)
  | Str (s : string)
  | Array (items : list string)
  | Object (props : gmap string property).

(** [Boolean(v)] *)
Definition truthy (v : value) : bool :=
  match v with
  | Null => false
  | Bool b => b
  | Number n => negb (n =? 0)%Z
  | Str s => negb (String.eqb s "")
  | Array _ | Object _ => true
  end.

(** [Boolean(x)] for [x] a value or [undefined]. *)
Definition Boolean (x : option value) : bool :=
  match x with Some v => truthy v | None => false end.

(** The named properties of a value that is not [null]. *)
Definition props_of (v : value) : gmap string property :=
  match v with Object props => props | _ => ∅ end.

End Json.

(** ** The batch orchestrator *)

(** One call of the extraction service and the reading of its response:
    the body of the [try] block of [processChunksInBatches]. *)
Inductive reply :=
  | RateLimited
      (* the response has status 429 *)
  | Failed (error : exn)
      (* [fetch] rejects, the response is not ok, or no JSON is found in it *)
  | Extracted (data : Json.value).
      (* the value of [JSON.parse(jsonString)] *)

Record exchange := Exchange { took : N; reply_of : reply }.

(** The remote service: what the call for the chunk at [position], issued
    when [retries] calls for it were made before, answers, and the
    milliseconds it takes. *)
Class ExtractionService := respond : nat → string → nat → exchange.

Module Batch.
Import Json.

(** A settled promise of the callback of [batch.map]: when it settles,
    the calls it issued (position and number of the retry), and how it
    settles; [Normal None] is fulfilment with [undefined]. *)
Record task := Task {
  settles_at : N;
  calls : list (nat * nat);
  result : completion (option value);
}.

Definition exhausted (error : exn) : exn :=
  Error ("Failed to process chunk after " +:+ pretty MAX_RETRIES +:+
         " attempts: " +:+ message_of error).

(** What [filter(Boolean)] keeps of a settled promise. *)
Definition delivered (v : completion (option value)) : option value :=
  match v with
  | Normal (Some data) => if truthy data then Some data else None
  | _ => None
  end.

Section Orchestrator.
Context `{ExtractionService}.

(** The [while] loop of the callback; [fuel] bounds its iterations. *)
Fixpoint attempts (fuel : nat) (position : nat) (chunk : string)
    (retries : nat) (now : N) (log : list (nat * nat)) : option task :=
  if retries <? MAX_RETRIES then
    match fuel with
    | 0 => None
    | S fuel' =>
        let now := (now + RATE_LIMIT_DELAY)%N in
        let response := respond position chunk retries in
        let now := (now + response.(took))%N in
        let log := log ++ [(position, retries)] in
        match response.(reply_of) with
        | RateLimited =>
            let now := (now + RETRY_DELAY * N.of_nat (retries + 1))%N in
            attempts fuel' position chunk (S retries) now log
        | Extracted data =>
            Some {| settles_at := now; calls := log;
                    result := Normal (Some data) |}
        | Failed error =>
            let retries := S retries in
            if retries =? MAX_RETRIES then
              Some {| settles_at := now; calls := log;
                      result := Throw (exhausted error) |}
            else
              let now := (now + RETRY_DELAY * 2 ^ N.of_nat retries)%N in
              attempts fuel' position chunk retries now log
        end
    end
  else Some {| settles_at := now; calls := log; result := Normal None |}.

(** The callback of [batch.map], started at time [now]. *)
Definition process_chunk (position : nat) (chunk : string) (now : N)
  : option task :=
  attempts MAX_RETRIES position chunk 0 now [].

(** The rejection [Promise.all] settles with: the earliest one, and of
    two at the same time the one of the promise created first. *)
Fixpoint first_rejection (tasks : list task) : option (N * exn) :=
  match tasks with
  | [] => None
  | k :: rest =>
      match k.(result), first_rejection rest with
      | Throw e, Some (t', e') =>
          if (k.(settles_at) <=? t')%N then Some (k.(settles_at), e)
          else Some (t', e')
      | Throw e, None => Some (k.(settles_at), e)
      | Normal _, r => r
      end
  end.

Definition values (tasks : list task) : list (option value) :=
  omap (λ k, match k.(result) with Normal v => Some v | Throw _ => None end)
       tasks.

(** [await Promise.all(tasks)], awaited at time [now]. *)
Definition Promise_all (now : N) (tasks : list task)
  : N * completion (list (option value)) :=
  match first_rejection tasks with
  | Some (t, e) => (t, Throw e)
  | None => (foldr (λ k, N.max k.(settles_at)) now tasks,
             Normal (values tasks))
  end.

(** The outcome of a call of [processChunksInBatches]. *)
Record run := Run {
  ended_at : N;
  requests : list (nat * nat);
  returned : completion (list value);
}.

Definition totalBatches (chunks : list string) : nat :=
  (length chunks + BATCH_SIZE - 1) / BATCH_SIZE.

(** The [for] loop over the batches, [indices] being the values
    [batchIndex] still takes. *)
Fixpoint batches (chunks : list string) (indices : list nat) (now : N)
    (processedChunks : list value) (log : list (nat * nat)) : option run :=
  match indices with
  | [] => Some {| ended_at := now; requests := log;
                  returned := Normal processedChunks |}
  | batchIndex :: later =>
      let batchStart := batchIndex * BATCH_SIZE in
      let batchEnd := Nat.min (batchStart + BATCH_SIZE) (length chunks) in
      let batch := JsArray.slice batchStart batchEnd chunks in
      batchPromises ←
        mapM (λ '(index, chunk), process_chunk (batchStart + index) chunk now)
             (imap pair batch);
      let log := log ++ concat (map calls batchPromises) in
      match Promise_all now batchPromises with
      | (now, Throw e) =>
          Some {| ended_at := now; requests := log; returned := Throw e |}
      | (now, Normal batchResults) =>
          let processedChunks :=
            processedChunks ++ omap id (List.filter Boolean batchResults) in
          let now :=
            if batchIndex <? totalBatches chunks - 1
            then (now + RATE_LIMIT_DELAY * 2)%N else now in
          batches chunks later now processedChunks log
      end
  end.

Definition processChunksInBatches (chunks : list string) : option run :=
  batches chunks (seq 0 (totalBatches chunks)) 0%N [] [].

(** How the promise for the chunk at [position] settles, whenever it is
    started. *)
Definition verdict (position : nat) (chunk : string)
  : completion (option value) :=
  match process_chunk position chunk 0 with
  | Some k => k.(result)
  | None => Normal None
  end.

End Orchestrator.

(** A promise started at [now] for the chunk at [position] that made its
    calls in order, no more than [MAX_RETRIES], the first one after the
    delay of the rate limit. *)
Definition paced (now : N) (k : task) (position : nat) : Prop :=
  ∃ m, k.(calls) = map (pair position) (seq 0 m)
       ∧ 0 < m ≤ MAX_RETRIES
       ∧ (now + RATE_LIMIT_DELAY ≤ k.(settles_at))%N.

End Batch.

(** ** The merge step *)

Module Merge.
Import Json.

Record merged := Merged {
  title : string;
  prerequisites : list string;
  warnings : list string;
  steps : list string;
}.

(** [...x] for a property value that is truthy, and nothing for one that
    is missing or falsy: what [if (x) target.push(...x)] appends. *)
Definition spread (x : option property) : list string :=
  match x with
  | Some (PArray items) => items
  | Some (PString s) => map (λ c, String c EmptyString) (list_ascii_of_string s)
  | None => []
  end.

(** [[...new Set(l)]]: a set keeps one entry per value, in the order the
    values were first added. *)
Definition Set_add (set : list string) (x : string) : list string :=
  if decide (x ∈ set) then set else set ++ [x].
Definition Set_of (l : list string) : list string := foldl Set_add [] l.

(** The body of [processedChunks.forEach]. *)
Definition absorb (m : merged) (chunk : gmap string property) : merged :=
  {| title := m.(title);
     prerequisites := m.(prerequisites) ++ spread (chunk !! "key_points");
     warnings := m.(warnings) ++ spread (chunk !! "warnings");
     steps := m.(steps) ++ spread (chunk !! "steps") |}.

Definition mergeProcessedChunks (processedChunks : list (gmap string property))
  : merged :=
  let m := {| title := "Technical Manual Summary"; prerequisites := [];
              warnings := []; steps := [] |} in
  let m := foldl absorb m processedChunks in
  {| title := m.(title);
     prerequisites := Set_of m.(prerequisites);
     warnings := Set_of m.(warnings);
     steps := Set_of m.(steps) |}.

(** What [mergeProcessedChunks] collects from the property [name]. *)
Definition collected (name : string) (chunks : list (gmap string property))
  : list string :=
  concat (map (λ chunk, spread (chunk !! name)) chunks).

(** The object [mergeProcessedChunks] returns, as its properties. *)
Definition as_object (m : merged) : gmap string property :=
  {[ "title" := PString m.(title);
     "prerequisites" := PArray m.(prerequisites);
     "warnings" := PArray m.(warnings);
     "steps" := PArray m.(steps) ]}.

(** An extraction result as the specification types it, and the object
    the service returns for it. *)
Record ExtractionResult := {
  keyPoints : list string;
  resultWarnings : list string;
  resultSteps : list string;
}.

Definition to_object (r : ExtractionResult) : gmap string property :=
  {[ "key_points" := PArray r.(keyPoints);
     "warnings" := PArray r.(resultWarnings);
     "steps" := PArray r.(resultSteps) ]}.

(** The aggregate document read as an extraction result: its
    prerequisites are the key points. *)
Definition as_result (m : merged) : ExtractionResult :=
  {| keyPoints := m.(prerequisites); resultWarnings := m.(warnings);
     resultSteps := m.(steps) |}.

(** Deduplication in first-seen order, by recursion on the list. *)
Fixpoint first_seen (l : list string) : list string :=
  match l with
  | [] => []
  | x :: l' => x :: List.filter (λ y, negb (String.eqb x y)) (first_seen l')
  end.

End Merge.

(** ** The request handlers *)

(** The tokenizer of the [gpt-3-encoder] package. *)
Class Tokenizer := encode : string → list nat.

(** [RecursiveCharacterTextSplitter.splitText] of the [langchain] package,
    given the chunk size and the overlap. *)
Class TextSplitter := splitText : nat → nat → string → list string.

Module Server.
Import JsString JsNumber.

(** *** [/upload] *)

Record file := File { originalname : string; pages : list string }.

(** [s.replace(/\s+/g, ' ')] *)
Fixpoint collapse_whitespace (s : string) : string :=
  match s with
  | EmptyString => EmptyString
  | String c r =>
      if is_space c then
        match r with
        | String c' _ =>
            if is_space c' then collapse_whitespace r
            else String " " (collapse_whitespace r)
        | EmptyString => String " " EmptyString
        end
      else String c (collapse_whitespace r)
  end.

Definition is_terminator (c : ascii) : bool :=
  existsb (Ascii.eqb c) (list_ascii_of_string ".!?").

Definition starts_upper (s : string) : bool :=
  match s with
  | String c _ => let n := nat_of_ascii c in ((65 <=? n) && (n <=? 90))%nat
  | EmptyString => false
  end.

(** [s.split(/(?<=[.!?])\s+(?=[A-Z])/)]: [cur] is the fragment being
    read, reversed; [punct] says that the character before is one of
    [.!?]; [skipping] that a separator is being passed over. *)
Fixpoint split_from (cur : list ascii) (punct skipping : bool) (s : string)
  : list string :=
  match s with
  | EmptyString => [string_of_list_ascii (rev cur)]
  | String c r =>
      if skipping && is_space c then split_from cur false true r
      else if punct && is_space c && starts_upper (trimStart r) then
        string_of_list_ascii (rev cur) :: split_from [] false true r
      else split_from (c :: cur) (is_terminator c) false r
  end.

Definition split_sentences (s : string) : list string :=
  split_from [] false false s.

(** A text whose white space is single spaces, as [replace(/\s+/g, ' ')]
    leaves it. *)
Definition starts_space (s : string) : bool :=
  match s with String c _ => is_space c | EmptyString => false end.

Fixpoint single_spaced (s : string) : bool :=
  match s with
  | EmptyString => true
  | String c r =>
      (negb (is_space c) || (Ascii.eqb c " " && negb (starts_space r)))
      && single_spaced r
  end.

(** The last character of a text is one of [.!?]. *)
Definition ends_sentence (s : string) : bool :=
  match rev (list_ascii_of_string s) with
  | c :: _ => is_terminator c
  | [] => false
  end.

(** The fragments of a page, before the filter. *)
Definition fragments (pageText : string) : list string :=
  split_sentences (collapse_whitespace pageText).

Definition useful (chunk : string) : bool :=
  50 <? String.length (trim chunk).

Definition pageChunks (pageText : string) : list string :=
  map trim (List.filter useful (fragments pageText)).

(** The text and the page of a stored chunk. *)
Definition entry_of (c : VectorStore.chunk) : string * nat :=
  (c.(VectorStore.text), c.(VectorStore.page)).

(** The chunks the pages of a document contribute, with their pages. *)
Definition page_entries (i : nat) (pageText : string) : list (string * nat) :=
  map (λ chunk, (chunk, S i)) (pageChunks pageText).

Definition document_entries (pages : list string) : list (string * nat) :=
  concat (imap page_entries pages).

Section Upload.
Context `{Tokenizer}.

Definition embedding_of (chunk : string) : list number :=
  let tokens := encode chunk in
  map (λ t, div (of_nat t) (of_nat (length tokens))) tokens.

Definition store_page (pageNum : nat) (pageText : string)
    (store : VectorStore.t) : VectorStore.t :=
  foldl (λ s chunk, VectorStore.addChunk chunk (embedding_of chunk) pageNum s)
        store (pageChunks pageText).

Definition set_document (name : string) (numPages : nat)
    (store : VectorStore.t) : VectorStore.t :=
  {| VectorStore.chunks := store.(VectorStore.chunks);
     VectorStore.embeddings := store.(VectorStore.embeddings);
     VectorStore.meta :=
       {| VectorStore.currentFileName := name;
          VectorStore.pageCount := numPages;
          VectorStore.totalChunks :=
            store.(VectorStore.meta).(VectorStore.totalChunks) |};
     VectorStore.fresh := store.(VectorStore.fresh) |}.

Definition set_totalChunks (store : VectorStore.t) : VectorStore.t :=
  {| VectorStore.chunks := store.(VectorStore.chunks);
     VectorStore.embeddings := store.(VectorStore.embeddings);
     VectorStore.meta :=
       {| VectorStore.currentFileName :=
            store.(VectorStore.meta).(VectorStore.currentFileName);
          VectorStore.pageCount :=
            store.(VectorStore.meta).(VectorStore.pageCount);
          VectorStore.totalChunks := length store.(VectorStore.chunks) |};
     VectorStore.fresh := store.(VectorStore.fresh) |}.

(** The handler of [/upload] runs in turns: it gives up control at
    each [await], and another handler may then run on the store as it
    stands.  The turns that write the store, in order: the first runs
    up to [getDocument]; the second records the document; then one
    per page, after the text of the page arrived; the turn of the last
    page also sets [totalChunks] and answers. *)
Definition page_turn (numPages i : nat) (pageText : string)
    (s : VectorStore.t) : VectorStore.t :=
  let s := store_page (S i) pageText s in
  if S i =? numPages then set_totalChunks s else s.

Definition upload_turns (f : file) : list (VectorStore.t → VectorStore.t) :=
  let numPages := length f.(pages) in
  VectorStore.clear
  :: (λ s, let s := set_document f.(originalname) numPages s in
           if numPages =? 0 then set_totalChunks s else s)
  :: imap (page_turn numPages) f.(pages).

(** The store after the first [k] turns of an upload. *)
Definition during_upload (f : file) (k : nat) (store : VectorStore.t)
  : VectorStore.t :=
  foldl (λ s turn, turn s) store (take k (upload_turns f)).

Definition upload (f : file) (store : VectorStore.t) : VectorStore.t :=
  during_upload f (length (upload_turns f)) store.

(** Several requests in progress.  A handler gives up control at each
    [await] to the handlers of the other requests, those of other uploads
    included.  [schedule] names, turn after turn, the upload that runs
    its next turn, and [progress] counts the turns each upload has run;
    the name of no upload, or of one that has answered, runs nothing. *)
Fixpoint run (uploads : list file) (schedule progress : list nat)
    (store : VectorStore.t) : VectorStore.t :=
  match schedule with
  | [] => store
  | i :: later =>
      match uploads !! i, progress !! i with
      | Some f, Some k =>
          match upload_turns f !! k with
          | Some turn => run uploads later (<[i := S k]> progress) (turn store)
          | None => run uploads later progress store
          end
      | _, _ => run uploads later progress store
      end
  end.

(** The store after the turns of [schedule], none of the uploads having
    run a turn before. *)
Definition interleaved (uploads : list file) (schedule : list nat)
    (store : VectorStore.t) : VectorStore.t :=
  run uploads schedule (replicate (length uploads) 0) store.


End Upload.

(** *** [/search] *)

(** How the handler of [/search] leaves its synchronous part: with an
    answer, or with the hits it asks the model about. *)
Inductive search_outcome :=
  | Status400 (error : string)
  | NoRelevantInformation
  | AskModel (searchResults : list VectorStore.hit)
  | Status500 (error details : string).

Definition no_content : string := "No manual content available".

Definition search_handler `{RegExpHost} (query : string)
    (store : VectorStore.t) : search_outcome :=
  if String.eqb query "" then Status400 "No search query provided"
  else if length store.(VectorStore.chunks) =? 0 then Status400 no_content
  else
    match VectorStore.search store query VectorStore.default_topK with
    | Throw e => Status500 "Failed to search the manual" (message_of e)
    | Normal [] => NoRelevantInformation
    | Normal searchResults => AskModel searchResults
    end.

(** *** [/api/gemini] *)

Inductive summary_outcome :=
  | Summary400 (error details : string)
  | Summary200 (finalResult : Merge.merged).

(** The handler from the text of the document on.  [None] is a run of the
    model that ran out of fuel. *)
Definition summarize `{TextSplitter} `{ExtractionService} (fullText : string)
  : option summary_outcome :=
  if String.length (trim fullText) =? 0 then
    Some (Summary400 "No text content found in PDF"
            "The PDF appears to be empty or contains no extractable text")
  else
    let chunks := splitText CHUNK_SIZE CHUNK_OVERLAP fullText in
    r ← Batch.processChunksInBatches chunks;
    match r.(Batch.returned) with
    | Throw e => Some (Summary400 "Failed to process PDF" (message_of e))
    | Normal processedChunks =>
        Some (Summary200
                (Merge.mergeProcessedChunks (map Json.props_of processedChunks)))
    end.

(** *** The placeholder embedding *)

(** [generateEmbedding]: the lengths of the words between spaces. *)
Definition generateEmbedding (text : string) : list nat :=
  map String.length (split " " text).

End Server.

(** ** The store of [server.js] *)

Module ServerJs.

(** [vectorStore] is a plain object, from the position of a chunk to the
    chunk and its embedding. *)
Record entry := Entry { chunk : string; embedding : list nat }.

(** [chunks.forEach((chunk, index) => ...)] of the handler of [/upload]. *)
Definition store_chunks (chunks : list string) (vectorStore : gmap nat entry)
  : gmap nat entry :=
  foldl (λ store '(index, chunk),
           <[index := {| chunk := chunk;
                         embedding := Server.generateEmbedding chunk |}]> store)
        vectorStore (imap pair chunks).

(** The handler of [/upload], from the text of the document on. *)
Definition upload `{TextSplitter} (fullText : string)
    (vectorStore : gmap nat entry) : gmap nat entry :=
  store_chunks (splitText 1000 200 fullText) vectorStore.

End ServerJs.

(** ** The client *)

Module Client.
Import Json.

(** What [fetch] resolves with: the flag [ok], true for a status from 200
    to 299, and what [json()] gives. *)
Record response := Response {
  ok : bool;
  json : completion value;
}.

(** The answers of [/api/gemini], as [res.status(400).json] and
    [res.json] send them. *)
Definition api_gemini_response (outcome : Server.summary_outcome) : response :=
  match outcome with
  | Server.Summary400 error details =>
      {| ok := false;
         json := Normal (Object {[ "error" := PString error;
                                   "details" := PString details ]}) |}
  | Server.Summary200 finalResult =>
      {| ok := true; json := Normal (Object (Merge.as_object finalResult)) |}
  end.

(** [Boolean(x)] for a property, which may be missing. *)
Definition present (x : option property) : bool :=
  match x with
  | Some (PString s) => negb (String.eqb s "")
  | Some (PArray _) => true
  | None => false
  end.

(** [String(x)]: the message [new Error(x)] gets. *)
Definition text_of (x : option property) : string :=
  match x with
  | Some (PString s) => s
  | Some (PArray items) => String.concat "," items
  | None => "undefined"
  end.

(** Reading a property of [null] throws; the message is the engine's. *)
Definition null_read : exn :=
  TypeError "Cannot read properties of null (reading 'details')".

(** [new Error(errorData.details || errorData.error || fallback)] *)
Definition error_of (errorData : value) (fallback : string) : exn :=
  match errorData with
  | Null => null_read
  | _ =>
      let details := props_of errorData !! "details" in
      let error := props_of errorData !! "error" in
      Error (if present details then text_of details
             else if present error then text_of error
             else fallback)
  end.

Record InstructionResponse := {
  title : property;
  prerequisites : list string;
  warnings : list string;
  steps : list string;
}.

(** [Array.isArray(x) ? x : []] *)
Definition array_or_empty (x : option property) : list string :=
  match x with Some (PArray items) => items | _ => [] end.

(** [!data || typeof data !== 'object'] *)
Definition not_an_object (data : value) : bool :=
  negb (truthy data)
  || match data with Null | Array _ | Object _ => false | _ => true end.

(** The body of the [try] of [extractInstructionsFromPDF], from the
    outcome of [fetch] on. *)
Definition validated (fetched : completion response)
  : completion InstructionResponse :=
  response ← fetched;
  if negb response.(ok) then
    errorData ← response.(json);
    Throw (error_of errorData "Failed to process PDF")
  else
    data ← response.(json);
    if not_an_object data then
      Throw (Error "Invalid response format from Gemini API")
    else
      let validatedResponse :=
        {| title := match props_of data !! "title" with
                    | Some x => if present (Some x) then x
                                else PString "Manual Instructions"
                    | None => PString "Manual Instructions"
                    end;
           prerequisites := array_or_empty (props_of data !! "prerequisites");
           warnings := array_or_empty (props_of data !! "warnings");
           steps := array_or_empty (props_of data !! "steps") |} in
      if (length validatedResponse.(steps) =? 0)
         && (length validatedResponse.(prerequisites) =? 0)
         && (length validatedResponse.(warnings) =? 0)
      then Throw (Error "No valid instructions could be extracted from the PDF")
      else Normal validatedResponse.

(** [extractInstructionsFromPDF]: every error thrown in the [try] is an
    [Error] object, and is thrown again under a prefix. *)
Definition extractInstructionsFromPDF (fetched : completion response)
  : completion InstructionResponse :=
  match validated fetched with
  | Normal validatedResponse => Normal validatedResponse
  | Throw error => Throw (Error ("Gemini API error: " +:+ message_of error))
  end.

(** A text that does not hold the character [sep]. *)
Definition without (sep : ascii) (s : string) : Prop :=
  Forall (λ c, Ascii.eqb c sep = false) (list_ascii_of_string s).

(** [reader.result.split(",")[1]] of [convertPDFToBase64], for a result
    that is a string; [None] is [undefined]. *)
Definition base64_of (result : string) : option string :=
  JsString.split "," result !! 1.

End Client.

(** ** The relevance score in closed form *)

Module Score.
Import JsString JsNumber.

Definition term_frequency (terms : list string) (text : string) : nat :=
  sum_list (map (λ term, RegExp.count_from 0 term text) terms).

Definition present (terms : list string) (text : string) : list string :=
  List.filter (includes text) terms.

(** Frequency times coverage, plus a half per term of the chunk before. *)
Definition closed_form (frequency found total before : nat) : number :=
  add (mul (of_nat frequency) (div (of_nat found) (of_nat total)))
      (mul (of_nat before) half).

(** The score [search] computes for the chunk at position [i] of the
    lower-cased texts, in closed form: every term found counts, as often
    as the query repeats it. *)
Definition of_code (terms : list string) (texts : list string) (i : nat) : number :=
  let text := nth i texts "" in
  closed_form (term_frequency terms text)
              (length (present terms text))
              (length terms)
              (match i with
               | 0 => 0
               | S j => length (present terms (nth j texts ""))
               end).

(** The tokens as the specification words them: those between white
    space. *)
Definition spec_tokens (query : string) : list string :=
  List.filter (λ term, (2 <? String.length term)%nat)
              (split_whitespace (toLowerCase query)).

End Score.

(** ** Numbers in binary64 *)

(** The arithmetic of the code: every operation gives its exact result
    rounded to binary64, to the nearest number and to the even one of two
    that are as near. *)
Module Binary64.
Import JsString JsNumber VectorStore.

(** The odd factor of a positive integer. *)
Fixpoint odd_part (p : BinNums.positive) : BinNums.positive :=
  match p with
  | xO p' => odd_part p'
  | _ => p
  end.

(** The exponent [k] when [p] is 2^k. *)
Fixpoint power_of_two (p : BinNums.positive) : option Z :=
  match p with
  | xH => Some 0%Z
  | xO p' => Z.succ <$> power_of_two p'
  | xI _ => None
  end.

(** Whether a rational in lowest terms is a number of binary64: an
    integer below 2^53 times a power of two that is no less than 2^-1074,
    below 2^1024 in absolute value. *)
Definition representable (q : Q) : bool :=
  match Qnum q with
  | Z0 => true
  | Zpos n | Zneg n =>
      match power_of_two (Qden q) with
      | Some k =>
          (k <=? 1074)%Z && (Zpos (odd_part n) <? 2 ^ 53)%Z
          && (Zpos n <? 2 ^ 1024 * Zpos (Qden q))%Z
      | None => false
      end
  end.

(** 2^e for an exponent that may be negative, and is then taken as 0. *)
Definition pow2 (e : Z) : Z := (2 ^ Z.max 0 e)%Z.

(** The number of binary64 nearest to the positive rational n/d, the one
    with an even significand of two that are as near; infinity from 2^1024
    on. *)
Definition nearest_positive (n d : BinNums.positive) : number :=
  (* 2^(e-1) < n/d < 2^(e+1) *)
  let e := (Z.log2 (Zpos n) - Z.log2 (Zpos d))%Z in
  (* 2^e <= n/d < 2^(e+1) *)
  let e := if (Zpos d * pow2 e <=? Zpos n * pow2 (- e))%Z then e
           else (e - 1)%Z in
  (* the exponent of the unit in the last place *)
  let ulp := Z.max (e - 52) (-1074) in
  let numerator := (Zpos n * pow2 (- ulp))%Z in
  let denominator := (Zpos d * pow2 ulp)%Z in
  let m := (numerator / denominator)%Z in
  let r := (numerator mod denominator)%Z in
  let m := if (2 * r <? denominator)%Z then m
           else if (denominator <? 2 * r)%Z then (m + 1)%Z
           else if Z.even m then m else (m + 1)%Z in
  if (2 ^ 1024 <=? m * pow2 ulp)%Z then Infinity false
  else Finite (Qred (inject_Z (m * pow2 ulp) / inject_Z (pow2 (- ulp)))).

Definition nearest (q : Q) : number :=
  match Qnum q with
  | Z0 => Finite 0
  | Zpos n => nearest_positive n (Qden q)
  | Zneg n => opp (nearest_positive n (Qden q))
  end.

(** The rounding of the exact result of an operation: a number of
    binary64 is its own rounding. *)
Definition round (q : Q) : number :=
  let q := Qred q in
  if representable q then Finite q else nearest q.

Definition rounded (x : number) : number :=
  match x with
  | Finite q => round q
  | _ => x
  end.

Definition of_nat (n : nat) : number := rounded (JsNumber.of_nat n).
Definition add (x y : number) : number := rounded (JsNumber.add x y).
Definition mul (x y : number) : number := rounded (JsNumber.mul x y).
Definition div (x y : number) : number := rounded (JsNumber.div x y).
Definition sub (x y : number) : number := rounded (JsNumber.sub x y).

Section Search.
Context `{RegExpHost}.

(** The callback of [this.chunks.map] in [search], in the arithmetic of
    binary64. *)
Definition score_chunk (all : list chunk) (terms : list string) (c : chunk)
  : completion scored :=
  let text := toLowerCase c.(text) in
  (* term frequency *)
  score ← forEach terms
            (λ score term,
               termCount ← RegExp.match_count term text;
               Normal (add score (of_nat termCount)))
            (of_nat 0);
  (* share of the terms the chunk contains *)
  let uniqueTermsFound := length (List.filter (includes text) terms) in
  let score := mul score (div (of_nat uniqueTermsFound) (of_nat (length terms))) in
  (* the chunk before this one *)
  let chunkIndex := indexOf all c in
  score ←
    (if (0 <? chunkIndex)%Z then
       match all !! Z.to_nat (chunkIndex - 1) with
       | Some prev =>
           let prevChunk := toLowerCase prev.(VectorStore.text) in
           forEach terms
             (λ score term,
                Normal (if includes prevChunk term then add score half
                        else score))
             score
       | None => Throw (TypeError "Cannot read properties of undefined")
       end
     else Normal score);
  Normal {| s_chunk := c.(VectorStore.text); s_page := c.(page); s_score := score |}.

(** The array [scoredChunks] of [search]. *)
Definition scoredChunks (this : t) (query : string) : completion (list scored) :=
  let terms := searchTerms query in
  mapM (score_chunk this.(chunks) terms) this.(chunks).

Definition by_score_descending (a b : scored) : number :=
  sub b.(s_score) a.(s_score).

Definition ranked (scoredChunks : list scored) (topK : nat) : list hit :=
  map as_hit
    (JsArray.slice 0 topK
       (JsArray.sort by_score_descending
          (List.filter (λ item, positive item.(s_score)) scoredChunks))).

Definition search (this : t) (query : string) (topK : nat)
  : completion (list hit) :=
  scoredChunks ← scoredChunks this query;
  Normal (ranked scoredChunks topK).

End Search.

(** The score in closed form: the frequency times the share of the terms
    found, the quotient and the product each rounded; then a half added
    for each term of the chunk before, one after the other. *)
Definition closed_form (frequency found total before : nat) : number :=
  Nat.iter before (λ score, add score half)
    (mul (of_nat frequency) (div (of_nat found) (of_nat total))).

(** The score [search] computes for the chunk at position [i] of the
    lower-cased texts: every term found counts, as often as the query
    repeats it. *)
Definition of_code (terms : list string) (texts : list string) (i : nat) : number :=
  let text := nth i texts "" in
  closed_form (Score.term_frequency terms text)
              (length (Score.present terms text))
              (length terms)
              (match i with
               | 0 => 0
               | S j => length (Score.present terms (nth j texts ""))
               end).

(** The score as the specification words it: the tokens are those between
    white space, and the coverage counts the distinct tokens found; in the
    same arithmetic. *)
Definition of_spec (query : string) (texts : list string) (i : nat) : number :=
  let terms := Score.spec_tokens query in
  let text := nth i texts "" in
  closed_form (Score.term_frequency terms text)
              (length (Merge.first_seen (Score.present terms text)))
              (length terms)
              (match i with
               | 0 => 0
               | S j => length (Score.present terms (nth j texts ""))
               end).

End Binary64.

(** ** Inputs of the examples *)

Module Examples.
Import Json.

Definition tab : string := String (ascii_of_nat 9) EmptyString.

(** A service that answers every call with status 429. *)
Definition always_limited : ExtractionService :=
  λ _ _ _, {| took := 100; reply_of := RateLimited |}.

Definition steps_of (chunk : string) : value :=
  Object {[ "steps" := PArray [chunk] ]}.

(** A service that limits every call for the first chunk and extracts
    the others at once. *)
Definition first_limited : ExtractionService :=
  λ position chunk _,
    match position with
    | 0 => {| took := 100; reply_of := RateLimited |}
    | _ => {| took := 100; reply_of := Extracted (steps_of chunk) |}
    end.

(** A service that fails the first call for a chunk, limits the second
    and extracts on the third. *)
Definition recovers : ExtractionService :=
  λ _ chunk retries,
    match retries with
    | 0 => {| took := 100; reply_of := Failed (Error "fetch failed") |}
    | 1 => {| took := 100; reply_of := RateLimited |}
    | _ => {| took := 100; reply_of := Extracted (steps_of chunk) |}
    end.

(** A service that cannot be reached. *)
Definition unreachable : ExtractionService :=
  λ _ _ _, {| took := 100; reply_of := Failed (Error "fetch failed") |}.

(** A splitter that returns the text as one chunk. *)
Definition whole : TextSplitter := λ _ _ text, [text].

Definition one_token_per_byte : Tokenizer :=
  λ chunk, map nat_of_ascii (list_ascii_of_string chunk).

Definition fifty : string :=
  "Check the oil level before every start, every day.".

Definition first_page : string :=
  "Remove the four screws of the cover with the supplied hexagonal key.".
Definition second_page : string :=
  "Replace the filter cartridge and close the cover until it clicks shut.".

Definition manual : Server.file :=
  {| Server.originalname := "manual.pdf";
     Server.pages := [first_page; second_page] |}.

Definition earlier : Server.file :=
  {| Server.originalname := "old.pdf";
     Server.pages :=
       ["The previous document holds one sentence which is long enough."] |}.

End Examples.

(** * Properties *)

(** ** Sets of strings in insertion order *)

Section FirstSeen.
Import Merge.

Lemma filter_filter_and {A} (p q : A → bool) (l : list A) :
  List.filter p (List.filter q l) = List.filter (λ y, q y && p y) l.
Proof.
  induction l as [|y l IH]; simpl; [done|].
  destruct (q y); simpl; [destruct (p y)|]; by rewrite IH.
Qed.

Lemma eqb_decide (x y : string) : String.eqb x y = bool_decide (x = y).
Proof.
  destruct (String.eqb_spec x y) as [->|Hne].
  - by rewrite bool_decide_eq_true_2.
  - by rewrite bool_decide_eq_false_2.
Qed.

(** The set built by insertion holds, behind what it held before, the
    first occurrences of the values it did not hold. *)
Lemma foldl_Set_add (l acc : list string) :
  foldl Set_add acc l
  = acc ++ List.filter (λ y, negb (bool_decide (y ∈ acc))) (first_seen l).
Proof.
  revert acc. induction l as [|x l IH]; intros acc; simpl.
  - by rewrite app_nil_r.
  - rewrite IH. unfold Set_add. destruct (decide (x ∈ acc)) as [Hin|Hout].
    + rewrite bool_decide_eq_true_2 by done. simpl. f_equal.
      rewrite filter_filter_and. apply List.filter_ext. intros y.
      rewrite eqb_decide.
      destruct (bool_decide_reflect (x = y)) as [<-|]; simpl; [|done].
      by rewrite bool_decide_eq_true_2.
    + rewrite bool_decide_eq_false_2 by done. simpl.
      rewrite <- app_assoc. simpl. do 2 f_equal.
      rewrite filter_filter_and. apply List.filter_ext. intros y.
      rewrite eqb_decide.
      destruct (bool_decide_reflect (x = y)) as [<-|Hne]; simpl.
      * rewrite bool_decide_eq_true_2; [done|]. set_solver.
      * apply (f_equal negb). apply bool_decide_ext. set_solver.
Qed.

Lemma Set_of_first_seen (l : list string) : Set_of l = first_seen l.
Proof.
  unfold Set_of. rewrite foldl_Set_add. simpl.
  induction (first_seen l) as [|y k IH]; simpl; [done | by f_equal].
Qed.

Lemma elem_of_List_filter {A} (p : A → bool) (l : list A) (x : A) :
  x ∈ List.filter p l ↔ x ∈ l ∧ p x = true.
Proof. rewrite !list_elem_of_In. apply List.filter_In. Qed.

Lemma first_seen_elem (l : list string) (x : string) :
  x ∈ first_seen l ↔ x ∈ l.
Proof.
  induction l as [|y l IH]; simpl; [done|].
  rewrite !elem_of_cons, elem_of_List_filter, IH, eqb_decide.
  destruct (decide (x = y)) as [->|Hne]; [naive_solver|].
  rewrite bool_decide_eq_false_2 by done. naive_solver.
Qed.

Lemma NoDup_List_filter {A} (p : A → bool) (l : list A) :
  NoDup l → NoDup (List.filter p l).
Proof.
  induction 1 as [|y l Hy Hl IH]; simpl; [constructor|].
  destruct (p y); [|done]. constructor; [|done].
  rewrite elem_of_List_filter. naive_solver.
Qed.

Lemma first_seen_NoDup (l : list string) : NoDup (first_seen l).
Proof.
  induction l as [|y l IH]; simpl; constructor.
  - rewrite elem_of_List_filter, eqb_decide.
    rewrite bool_decide_eq_true_2 by done. naive_solver.
  - by apply NoDup_List_filter.
Qed.

(** A list without repetition is left as it is. *)
Lemma first_seen_NoDup_id (l : list string) : NoDup l → first_seen l = l.
Proof.
  induction 1 as [|y l Hy Hl IH]; simpl; [done|].
  rewrite IH. f_equal.
  clear IH Hl. induction l as [|z l IH]; simpl; [done|].
  rewrite eqb_decide, bool_decide_eq_false_2 by set_solver. simpl.
  f_equal. apply IH. set_solver.
Qed.

Lemma first_seen_idempotent (l : list string) :
  first_seen (first_seen l) = first_seen l.
Proof. apply first_seen_NoDup_id, first_seen_NoDup. Qed.

(** A value of the input occurs once in the set. *)
Lemma first_seen_count (l : list string) (x : string) :
  x ∈ l → count_occ string_dec (first_seen l) x = 1.
Proof.
  intros Hx. apply first_seen_elem in Hx.
  pose proof (first_seen_NoDup l) as Hnd.
  apply NoDup_ListNoDup in Hnd.
  rewrite (List.NoDup_count_occ string_dec) in Hnd.
  specialize (Hnd x).
  apply list_elem_of_In in Hx.
  rewrite (count_occ_In string_dec) in Hx. lia.
Qed.

End FirstSeen.

(** ** The merge step *)

Section MergeFacts.
Import Json Merge.

Lemma foldl_absorb (chunks : list (gmap string property)) (m : merged) :
  foldl absorb m chunks
  = {| title := m.(title);
       prerequisites := m.(prerequisites) ++ collected "key_points" chunks;
       warnings := m.(warnings) ++ collected "warnings" chunks;
       steps := m.(steps) ++ collected "steps" chunks |}.
Proof.
  revert m. induction chunks as [|c chunks IH]; intros m.
  - destruct m; simpl. by rewrite !app_nil_r.
  - simpl. rewrite IH. unfold collected. simpl. by rewrite <- !app_assoc.
Qed.

Lemma merge_fields (chunks : list (gmap string property)) :
  mergeProcessedChunks chunks
  = {| title := "Technical Manual Summary";
       prerequisites := first_seen (collected "key_points" chunks);
       warnings := first_seen (collected "warnings" chunks);
       steps := first_seen (collected "steps" chunks) |}.
Proof.
  unfold mergeProcessedChunks. rewrite foldl_absorb. simpl.
  by rewrite !Set_of_first_seen.
Qed.

Lemma collected_to_object (results : list ExtractionResult) :
  collected "key_points" (map to_object results) = concat (map keyPoints results)
  ∧ collected "warnings" (map to_object results) = concat (map resultWarnings results)
  ∧ collected "steps" (map to_object results) = concat (map resultSteps results).
Proof.
  unfold collected. rewrite !map_map.
  repeat split; f_equal; apply map_ext; intros r; by vm_compute.
Qed.

(** C5: for every sequence of extraction results, the aggregate document
    holds under [prerequisites] the key points of all chunks, under
    [warnings] their warnings and under [steps] their steps, each
    concatenated in the order of the input and reduced to the first
    occurrence of every string, strings being compared exactly; no string
    is repeated in a field and each field holds the strings of its input;
    the title is the constant "Technical Manual Summary"; and the empty
    input gives the document with three empty fields. *)
Theorem merge_concatenates_and_deduplicates (results : list ExtractionResult) :
  let m := mergeProcessedChunks (map to_object results) in
  m.(prerequisites) = first_seen (concat (map keyPoints results))
  ∧ m.(warnings) = first_seen (concat (map resultWarnings results))
  ∧ m.(steps) = first_seen (concat (map resultSteps results))
  ∧ (NoDup m.(prerequisites) ∧ NoDup m.(warnings) ∧ NoDup m.(steps))
  ∧ (∀ s, s ∈ m.(prerequisites) ↔ ∃ r, r ∈ results ∧ s ∈ r.(keyPoints))
  ∧ (∀ s, s ∈ m.(warnings) ↔ ∃ r, r ∈ results ∧ s ∈ r.(resultWarnings))
  ∧ (∀ s, s ∈ m.(steps) ↔ ∃ r, r ∈ results ∧ s ∈ r.(resultSteps))
  ∧ m.(title) = "Technical Manual Summary"
  ∧ mergeProcessedChunks []
    = {| title := "Technical Manual Summary"; prerequisites := [];
         warnings := []; steps := [] |}.
Proof.
  intros m. subst m. rewrite merge_fields. simpl.
  destruct (collected_to_object results) as (-> & -> & ->).
  assert (Hin : ∀ (f : ExtractionResult → list string) s,
             s ∈ first_seen (concat (map f results))
             ↔ ∃ r, r ∈ results ∧ s ∈ f r).
  { intros f s. rewrite first_seen_elem, list_elem_of_In, in_concat.
    setoid_rewrite in_map_iff. setoid_rewrite list_elem_of_In.
    naive_solver. }
  repeat split; try done; try apply first_seen_NoDup; try apply Hin.
Qed.

Lemma to_object_lookup (r : ExtractionResult) :
  to_object r !! "key_points" = Some (PArray r.(keyPoints))
  ∧ to_object r !! "warnings" = Some (PArray r.(resultWarnings))
  ∧ to_object r !! "steps" = Some (PArray r.(resultSteps)).
Proof. destruct r. by vm_compute. Qed.

(** The object returned has no property [key_points]. *)
Lemma as_object_lookup (m : merged) :
  as_object m !! "key_points" = None
  ∧ as_object m !! "warnings" = Some (PArray m.(warnings))
  ∧ as_object m !! "steps" = Some (PArray m.(steps)).
Proof. destruct m. by vm_compute. Qed.

Lemma merge_of_result (r : ExtractionResult) :
  mergeProcessedChunks [to_object r]
  = {| title := "Technical Manual Summary";
       prerequisites := first_seen r.(keyPoints);
       warnings := first_seen r.(resultWarnings);
       steps := first_seen r.(resultSteps) |}.
Proof.
  rewrite merge_fields. unfold collected. cbn [map concat].
  destruct (to_object_lookup r) as (-> & -> & ->).
  cbn [spread]. by rewrite !app_nil_r.
Qed.

Lemma merge_of_object (m : merged) :
  mergeProcessedChunks [as_object m]
  = {| title := "Technical Manual Summary";
       prerequisites := [];
       warnings := first_seen m.(warnings);
       steps := first_seen m.(steps) |}.
Proof.
  rewrite merge_fields. unfold collected. cbn [map concat].
  destruct (as_object_lookup m) as (-> & -> & ->).
  cbn [spread]. by rewrite !app_nil_r.
Qed.

(** C6, as the claim states it, fails: the aggregate document passed to
    the merge step as it is comes back with no prerequisites, since the
    merge step reads the key points from [key_points]. *)
Lemma remerge_loses_prerequisites :
  let m := mergeProcessedChunks
             [to_object {| keyPoints := ["Wear gloves"];
                           resultWarnings := ["Hot surface"];
                           resultSteps := ["Open the valve"] |}] in
  m.(prerequisites) = ["Wear gloves"]
  ∧ (mergeProcessedChunks [as_object m]).(prerequisites) = [].
Proof. by vm_compute. Qed.

(** C6, amended: merging the aggregate document again, its prerequisites
    given as the key points of an extraction result, returns the same
    document; passed as the object it is, its warnings and steps are kept;
    and a string found in the fields of the input chunks, in one or in
    several, occurs once in the field of the output. *)
Theorem remerge_is_idempotent (chunks : list (gmap string property)) :
  let m := mergeProcessedChunks chunks in
  mergeProcessedChunks [to_object (as_result m)] = m
  ∧ (mergeProcessedChunks [as_object m]).(warnings) = m.(warnings)
  ∧ (mergeProcessedChunks [as_object m]).(steps) = m.(steps)
  ∧ (∀ s, s ∈ collected "key_points" chunks →
          count_occ string_dec m.(prerequisites) s = 1)
  ∧ (∀ s, s ∈ collected "warnings" chunks →
          count_occ string_dec m.(warnings) s = 1)
  ∧ (∀ s, s ∈ collected "steps" chunks →
          count_occ string_dec m.(steps) s = 1).
Proof.
  intros m. subst m.
  rewrite merge_of_result, (merge_of_object (mergeProcessedChunks chunks)).
  rewrite merge_fields. simpl. rewrite !first_seen_idempotent.
  repeat split; try done; intros s Hs; by apply first_seen_count.
Qed.

End MergeFacts.

(** ** Strings *)

Section StringFacts.
Import JsString.




End StringFacts.

(** ** The search of the vector store *)

Section SearchFacts.
Import JsString JsNumber VectorStore.
Context `{RegExpHost}.


Lemma mapM_Throw {A B} (f : A → completion B) (x : A) (l : list A) (e : exn) :
  f x = Throw e → mapM f (x :: l) = Throw e.
Proof. intros Hf. simpl. by rewrite Hf. Qed.

(** [indexOf] answers -1 or a position of the array. *)
Lemma indexOf_from_range (l : list chunk) (c : chunk) (i : nat) :
  indexOf_from i l c = (-1)%Z
  ∨ (Z.of_nat i ≤ indexOf_from i l c < Z.of_nat (i + length l))%Z.
Proof.
  revert i. induction l as [|x l IH]; intros i; simpl; [by left|].
  destruct (oid x =? oid c); [right; lia|].
  destruct (IH (S i)) as [->|?]; [by left | right; lia].
Qed.

Lemma before_index_defined (all : list chunk) (c : chunk) :
  (0 <? indexOf all c)%Z = true →
  is_Some (all !! Z.to_nat (indexOf all c - 1)).
Proof.
  intros Hpos. apply Z.ltb_lt in Hpos. apply lookup_lt_is_Some.
  destruct (indexOf_from_range all c 0) as [Hi|Hi]; unfold indexOf in *; lia.
Qed.





(** The pattern [c++] is refused, whatever the text and the engine. *)
Lemma match_count_nothing_to_repeat (text : string) :
  RegExp.match_count "c++" text
  = Throw (SyntaxError "Invalid regular expression: Nothing to repeat").
Proof. reflexivity. Qed.

(** C9: [search] is not total.  Over every store that holds a chunk, the
    query [c++], whose one term survives and is compiled as a pattern,
    makes [search] throw a syntax error instead of returning hits, and the
    handler of [/search] answers it with status 500. *)
Theorem search_throws_on_invalid_pattern (this : t) (topK : nat) :
  this.(chunks) ≠ [] →
  ∃ message,
    searchTerms "c++" = ["c++"]
    ∧ search this "c++" topK = Throw (SyntaxError message)
    ∧ Server.search_handler "c++" this
      = Server.Status500 "Failed to search the manual" message.
Proof.
  intros Hne. exists "Invalid regular expression: Nothing to repeat".
  destruct this.(chunks) as [|c l] eqn:Hc; [done|].
  assert (Hthrow : ∀ k, search this "c++" k
    = Throw (SyntaxError "Invalid regular expression: Nothing to repeat")).
  { intros k. unfold search, scoredChunks. rewrite Hc.
    change (searchTerms "c++") with ["c++"].
    rewrite (mapM_Throw _ c l
               (SyntaxError "Invalid regular expression: Nothing to repeat"));
      [done|].
    unfold score_chunk. cbn [forEach].
    by rewrite match_count_nothing_to_repeat. }
  split; [done|]. split; [apply Hthrow|].
  unfold Server.search_handler.
  change (String.eqb "c++" "") with false. cbn iota.
  rewrite Hc. cbn [length Nat.eqb]. by rewrite Hthrow.
Qed.

End SearchFacts.

Lemma search_throws_on_invalid_pattern_witness :
  let store := VectorStore.stored no_embedding [("Check the oil level.", 1)] in
  store.(VectorStore.chunks) ≠ []
  ∧ ∃ message,
      VectorStore.searchTerms "c++" = ["c++"]
      ∧ VectorStore.search (H:=strict_host) store "c++" 5
        = Throw (SyntaxError message)
      ∧ Server.search_handler (H:=strict_host) "c++" store
        = Server.Status500 "Failed to search the manual" message.
Proof.
  split; [done|].
  by apply (search_throws_on_invalid_pattern (H:=strict_host)).
Defined.



(** ** Numbers *)

Section NumberFacts.
Import JsNumber.

Lemma same_refl (x : number) : same x x.
Proof. destruct x; simpl; [done | done | reflexivity]. Qed.

Lemma same_sym (x y : number) : same x y → same y x.
Proof. destruct x, y; simpl; try done; by symmetry. Qed.

Lemma same_trans (x y z : number) : same x y → same y z → same x z.
Proof.
  destruct x, y, z; simpl; try done; [congruence|].
  intros ? ?. by etransitivity.
Qed.

Lemma Qzero_same (p q : Q) : Qeq p q → Qzero p = Qzero q.
Proof.
  intros Hpq. unfold Qzero.
  destruct (Qeq_bool q 0) eqn:Hq.
  - apply Qeq_bool_iff. apply Qeq_bool_iff in Hq. by rewrite Hpq.
  - destruct (Qeq_bool p 0) eqn:Hp; [|done].
    apply Qeq_bool_iff in Hp. rewrite Hpq in Hp.
    apply Qeq_bool_iff in Hp. congruence.
Qed.

Lemma Qneg_same (p q : Q) : Qeq p q → Qneg p = Qneg q.
Proof.
  intros Hpq. unfold Qneg. f_equal.
  destruct (Qle_bool 0 q) eqn:Hq.
  - apply Qle_bool_iff. apply Qle_bool_iff in Hq. by rewrite Hpq.
  - destruct (Qle_bool 0 p) eqn:Hp; [|done].
    apply Qle_bool_iff in Hp. rewrite Hpq in Hp.
    apply Qle_bool_iff in Hp. congruence.
Qed.

Lemma add_same (x x' y : number) : same x x' → same (add x y) (add x' y).
Proof.
  destruct x as [|s|p], x' as [|s'|p'], y as [|t|q]; simpl; try done.
  - intros ->. by destruct (Bool.eqb s' t).
  - intros Hq. by rewrite Hq.
Qed.

Lemma mul_same (x x' y : number) : same x x' → same (mul x y) (mul x' y).
Proof.
  destruct x as [|s|p], x' as [|s'|p'], y as [|t|q]; simpl; try done.
  - by intros ->.
  - intros ->. by destruct (Qzero q).
  - intros Hq. rewrite (Qzero_same _ _ Hq), (Qneg_same _ _ Hq).
    by destruct (Qzero p').
  - intros Hq. by rewrite Hq.
Qed.

Lemma of_nat_add (a b : nat) :
  same (add (of_nat a) (of_nat b)) (of_nat (a + b)).
Proof.
  unfold of_nat. simpl. rewrite Nat2Z.inj_add, inject_Z_plus. reflexivity.
Qed.

(** A half more, [k] times and once again. *)
Lemma add_half_succ (x : number) (k : nat) :
  same (add (add x half) (mul (of_nat k) half)) (add x (mul (of_nat (S k)) half)).
Proof.
  destruct x; simpl; [done | done |].
  rewrite Nat2Z.inj_succ, <- Z.add_1_r, inject_Z_plus. unfold inject_Z. ring.
Qed.

Lemma add_no_half (x : number) : same x (add x (mul (of_nat 0) half)).
Proof. destruct x; simpl; [done | done |]. ring. Qed.

End NumberFacts.

(** ** The score of a chunk *)

Section ScoreFacts.
Import JsString JsNumber VectorStore.
Context `{RegExpHost}.

Lemma foldl_addChunk (emb : string → list number) (entries : list (string * nat))
    (s : t) :
  (foldl (λ s e, addChunk e.1 (emb e.1) e.2 s) s entries).(chunks)
  = s.(chunks) ++ imap (λ i, chunk_at emb (s.(fresh) + i)) entries
  ∧ (foldl (λ s e, addChunk e.1 (emb e.1) e.2 s) s entries).(fresh)
    = s.(fresh) + length entries.
Proof.
  revert s. induction entries as [|e entries IH]; intros s; simpl.
  - by rewrite app_nil_r, Nat.add_0_r.
  - destruct (IH (addChunk e.1 (emb e.1) e.2 s)) as [-> ->]. simpl.
    split; [|lia]. rewrite <- app_assoc. simpl. rewrite Nat.add_0_r.
    do 2 f_equal. apply imap_ext. intros i x _. simpl. f_equal. lia.
Qed.

(** The chunks of a store filled from the initial one carry the
    identities 0, 1, 2, ... in the order of their arrival. *)
Lemma stored_chunks (emb : string → list number) (entries : list (string * nat)) :
  (stored emb entries).(chunks) = imap (chunk_at emb) entries.
Proof. unfold stored. by destruct (foldl_addChunk emb entries initial) as [-> _]. Qed.

Lemma indexOf_from_first (l : list chunk) (c : chunk) (k i : nat) :
  (∀ j x, j < i → l !! j = Some x → x.(oid) ≠ c.(oid)) →
  (∃ x, l !! i = Some x ∧ x.(oid) = c.(oid)) →
  indexOf_from k l c = Z.of_nat (k + i).
Proof.
  revert k i. induction l as [|y l IH]; intros k i Hbefore (x & Hx & Hoid).
  - done.
  - simpl. destruct i as [|i]; simpl in Hx.
    + injection Hx as ->. rewrite Hoid, Nat.eqb_refl. f_equal. lia.
    + destruct (Nat.eqb_spec y.(oid) c.(oid)) as [Heq|_].
      * exfalso. by apply (Hbefore 0 y); [lia | |].
      * rewrite (IH (S k) i); [f_equal; lia | | eauto].
        intros j z Hj Hz. apply (Hbefore (S j) z); [lia | done].
Qed.

(** In such a store [indexOf] finds every chunk at its own position. *)
Lemma indexOf_stored (emb : string → list number) (entries : list (string * nat))
    (i : nat) (e : string * nat) :
  entries !! i = Some e →
  indexOf (imap (chunk_at emb) entries) (chunk_at emb i e) = Z.of_nat i.
Proof.
  intros He. unfold indexOf. rewrite (indexOf_from_first _ _ 0 i); [done | |].
  - intros j x Hj. rewrite list_lookup_imap.
    destruct (entries !! j); simpl; [|done]. intros [= <-]. simpl. lia.
  - exists (chunk_at emb i e). by rewrite list_lookup_imap, He.
Qed.

Lemma match_count_literal (term text : string) :
  RegExp.literal term = true →
  RegExp.match_count term text = Normal (RegExp.count_from 0 term text).
Proof. intros Hlit. unfold RegExp.match_count. by rewrite Hlit. Qed.

(** The first loop adds up the matches of the terms. *)
Lemma frequency_loop (terms : list string) (text : string) (q : Q) :
  forallb RegExp.literal terms = true →
  ∃ q', forEach terms
          (λ score term,
             termCount ← RegExp.match_count term text;
             Normal (add score (of_nat termCount)))
          (Finite q)
        = Normal (Finite q')
        ∧ Qeq q' (q + inject_Z (Z.of_nat (Score.term_frequency terms text))).
Proof.
  revert q. induction terms as [|term terms IH]; intros q Hlit.
  - exists q. split; [done|]. unfold Score.term_frequency. simpl. ring.
  - cbn [forallb] in Hlit. apply andb_prop in Hlit as [Hterm Hterms].
    cbn [forEach]. rewrite (match_count_literal term text Hterm).
    cbn [mbind completion_bind add of_nat].
    destruct (IH (q + inject_Z (Z.of_nat (RegExp.count_from 0 term text)))%Q
                Hterms) as (q' & -> & Hq').
    exists q'. split; [done|]. rewrite Hq'.
    unfold Score.term_frequency. cbn [map sum_list sum_list_with].
    rewrite Nat2Z.inj_add, inject_Z_plus. unfold id. ring.
Qed.

(** The second loop adds a half for every term the chunk before holds. *)
Lemma bonus_loop (terms : list string) (prev : string) (x : number) :
  ∃ y, forEach terms
         (λ score term,
            Normal (if includes prev term then add score half else score))
         x
       = Normal y
       ∧ same y (add x (mul (of_nat (length (Score.present terms prev))) half)).
Proof.
  revert x. induction terms as [|term terms IH]; intros x.
  - exists x. split; [done|]. apply add_no_half.
  - cbn [forEach]. unfold Score.present. cbn [List.filter].
    destruct (includes prev term).
    + destruct (IH (add x half)) as (y & Hy & Hsame).
      exists y. split; [exact Hy|].
      eapply same_trans; [exact Hsame|]. apply add_half_succ.
    + apply IH.
Qed.

Lemma nth_map_lookup {A} (f : A → string) (l : list A) (i : nat) (x : A) :
  l !! i = Some x → nth i (map f l) "" = f x.
Proof.
  revert i. induction l as [|y l IH]; intros [|i]; simpl; try done.
  - by intros [= ->].
  - apply IH.
Qed.

Lemma score_chunk_formula (emb : string → list number)
    (entries : list (string * nat)) (terms : list string) (i : nat)
    (e : string * nat) :
  forallb RegExp.literal terms = true →
  entries !! i = Some e →
  ∃ item,
    score_chunk (imap (chunk_at emb) entries) terms (chunk_at emb i e)
    = Normal item
    ∧ item.(s_chunk) = e.1 ∧ item.(s_page) = e.2
    ∧ same item.(s_score)
           (Score.of_code terms (map (λ e, toLowerCase e.1) entries) i).
Proof.
  intros Hlit He. unfold score_chunk.
  destruct (frequency_loop terms (toLowerCase e.1) 0 Hlit) as (q & Hq & Hfreq).
  cbn [text chunk_at page].
  change (of_nat 0) with (Finite 0) at 1. rewrite Hq. cbn [mbind completion_bind].
  rewrite (indexOf_stored emb entries i e He).
  assert (Htext : nth i (map (λ e, toLowerCase e.1) entries) ""
                  = toLowerCase e.1).
  { by apply (nth_map_lookup (λ e : string * nat, toLowerCase e.1)). }
  assert (Hmul : same (mul (Finite q)
                         (div (of_nat (length (List.filter
                                 (includes (toLowerCase e.1)) terms)))
                              (of_nat (length terms))))
                      (mul (of_nat (Score.term_frequency terms (toLowerCase e.1)))
                         (div (of_nat (length (Score.present terms
                                 (toLowerCase e.1))))
                              (of_nat (length terms))))).
  { apply mul_same. simpl. rewrite Hfreq. ring. }
  unfold Score.of_code, Score.closed_form. rewrite Htext.
  destruct i as [|j].
  - change (0 <? Z.of_nat 0)%Z with false. cbn iota.
    eexists. split; [done|]. split; [done|]. split; [done|]. cbn [s_score].
    eapply same_trans; [apply add_no_half|]. by apply add_same.
  - replace (0 <? Z.of_nat (S j))%Z with true by (symmetry; apply Z.ltb_lt; lia).
    replace (Z.to_nat (Z.of_nat (S j) - 1)) with j by lia.
    assert (is_Some (entries !! j)) as [e' He'].
    { apply lookup_lt_is_Some. apply lookup_lt_Some in He. lia. }
    rewrite list_lookup_imap, He'. cbn [fmap option_fmap option_map chunk_at text].
    destruct (bonus_loop terms (toLowerCase e'.1)
                (mul (Finite q)
                   (div (of_nat (length (List.filter
                           (includes (toLowerCase e.1)) terms)))
                        (of_nat (length terms)))))
      as (y & -> & Hy).
    cbn [mbind completion_bind].
    eexists. split; [done|]. split; [done|]. split; [done|]. cbn [s_score].
    eapply same_trans; [exact Hy|].
    assert (Hprev : nth j (map (λ e, toLowerCase e.1) entries) ""
                    = toLowerCase e'.1).
    { by apply (nth_map_lookup (λ e : string * nat, toLowerCase e.1)). }
    rewrite Hprev. by apply add_same.
Qed.

Lemma mapM_Normal_Forall2 {A B} (f : A → completion B) (l : list A) :
  (∀ x, x ∈ l → ∃ y, f x = Normal y) →
  ∃ k, mapM f l = Normal k ∧ Forall2 (λ x y, f x = Normal y) l k.
Proof.
  induction l as [|x l IH]; intros Hf.
  - exists []. by split.
  - destruct (Hf x) as [y Hy]; [set_solver|].
    destruct IH as (k & Hk & Hall); [intros; apply Hf; set_solver|].
    exists (y :: k). cbn [mapM]. rewrite Hy. cbn [mbind completion_bind].
    rewrite Hk. split; [done | by constructor].
Qed.

End ScoreFacts.

(** ** The scores in binary64 *)

Section Binary64Facts.
Import JsString JsNumber VectorStore.

Lemma odd_part_le (p : BinNums.positive) :
  (Zpos (Binary64.odd_part p) ≤ Zpos p)%Z.
Proof. induction p as [p IH|p IH|]; simpl; lia. Qed.

Lemma Qred_inject_Z (z : Z) : Qred (inject_Z z) = inject_Z z.
Proof.
  unfold Qred, inject_Z.
  pose proof (Z.ggcd_gcd z 1) as Hgcd.
  pose proof (Z.ggcd_correct_divisors z 1) as Hdiv.
  destruct (Z.ggcd z 1) as [g [a b]]. simpl in Hgcd, Hdiv.
  rewrite Z.gcd_1_r in Hgcd. subst g. destruct Hdiv as [-> Hb].
  f_equal; [lia|]. replace b with 1%Z by lia. done.
Qed.

(** An integer up to 2^53 is a number of binary64. *)
Lemma round_integer (z : Z) :
  (0 ≤ z ≤ 2 ^ 53)%Z → Binary64.round (inject_Z z) = Finite (inject_Z z).
Proof.
  intros Hz. unfold Binary64.round. rewrite Qred_inject_Z.
  destruct z as [|n|n]; [done | | lia].
  unfold Binary64.representable, inject_Z. cbn [Qnum Qden Binary64.power_of_two].
  assert (Hodd : (Zpos (Binary64.odd_part n) < 2 ^ 53)%Z).
  { destruct (Z.eq_dec (Zpos n) (2 ^ 53)%Z) as [Heq|Hne].
    - injection Heq as ->. by vm_compute.
    - pose proof (odd_part_le n). lia. }
  assert (Hbig : (Zpos n < 2 ^ 1024 * 1)%Z).
  { assert (2 ^ 53 < 2 ^ 1024)%Z by (apply Z.pow_lt_mono_r; lia). lia. }
  apply Z.ltb_lt in Hodd, Hbig. by rewrite Hodd, Hbig.
Qed.

Lemma round_Qeq (p q : Q) : Qeq p q → Binary64.round p = Binary64.round q.
Proof. intros Heq. unfold Binary64.round. by rewrite (Qred_complete p q Heq). Qed.

Lemma of_nat_exact (n : nat) :
  (Z.of_nat n ≤ 2 ^ 53)%Z → Binary64.of_nat n = Finite (inject_Z (Z.of_nat n)).
Proof.
  intros Hn. unfold Binary64.of_nat, of_nat, Binary64.rounded.
  apply round_integer. lia.
Qed.

(** Integers add without error up to 2^53. *)
Lemma add_of_nat (a b : nat) :
  (Z.of_nat (a + b) ≤ 2 ^ 53)%Z →
  Binary64.add (Binary64.of_nat a) (Binary64.of_nat b) = Binary64.of_nat (a + b).
Proof.
  intros Hsum. rewrite !of_nat_exact by lia.
  unfold Binary64.add. cbn [add Binary64.rounded].
  rewrite <- round_integer by lia. apply round_Qeq.
  by rewrite Nat2Z.inj_add, inject_Z_plus.
Qed.

Lemma term_frequency_cons (term : string) (terms : list string) (text : string) :
  Score.term_frequency (term :: terms) text
  = RegExp.count_from 0 term text + Score.term_frequency terms text.
Proof. done. Qed.

(** The first loop of the callback adds up the matches of the terms. *)
Lemma frequency_loop64 `{RegExpHost} (terms : list string) (text : string)
    (k : nat) :
  forallb RegExp.literal terms = true →
  (Z.of_nat (k + Score.term_frequency terms text) ≤ 2 ^ 53)%Z →
  forEach terms
    (λ score term,
       termCount ← RegExp.match_count term text;
       Normal (Binary64.add score (Binary64.of_nat termCount)))
    (Binary64.of_nat k)
  = Normal (Binary64.of_nat (k + Score.term_frequency terms text)).
Proof.
  revert k. induction terms as [|term terms IH]; intros k Hlit Hsum.
  - cbn [forEach]. unfold Score.term_frequency. simpl. by rewrite Nat.add_0_r.
  - cbn [forallb] in Hlit. apply andb_prop in Hlit as [Hterm Hterms].
    rewrite term_frequency_cons in *.
    cbn [forEach]. rewrite (match_count_literal term text Hterm).
    cbn [mbind completion_bind]. rewrite add_of_nat by lia.
    rewrite IH by (done || lia). f_equal. f_equal. lia.
Qed.

(** The second loop adds a half for every term the chunk before holds. *)
Lemma bonus_loop64 (terms : list string) (prev : string) (x : number) :
  forEach terms
    (λ score term,
       Normal (if includes prev term then Binary64.add score half else score))
    x
  = Normal (Nat.iter (length (Score.present terms prev))
              (λ score, Binary64.add score half) x).
Proof.
  revert x. induction terms as [|term terms IH]; intros x; [done|].
  cbn [forEach mbind completion_bind]. unfold Score.present.
  cbn [List.filter]. destruct (includes prev term); [|apply IH].
  rewrite IH. cbn [length]. by rewrite Nat.iter_succ_r.
Qed.

Lemma score_chunk64 `{RegExpHost} (emb : string → list number)
    (entries : list (string * nat)) (terms : list string) (i : nat)
    (e : string * nat) :
  forallb RegExp.literal terms = true →
  (Z.of_nat (Score.term_frequency terms (toLowerCase e.1)) ≤ 2 ^ 53)%Z →
  entries !! i = Some e →
  Binary64.score_chunk (imap (chunk_at emb) entries) terms (chunk_at emb i e)
  = Normal {| s_chunk := e.1; s_page := e.2;
              s_score := Binary64.of_code terms
                           (map (λ e, toLowerCase e.1) entries) i |}.
Proof.
  intros Hlit Hsum He. unfold Binary64.score_chunk.
  cbn [text chunk_at page].
  rewrite (frequency_loop64 terms (toLowerCase e.1) 0 Hlit) by done.
  cbn [mbind completion_bind Nat.add].
  rewrite (indexOf_stored emb entries i e He).
  unfold Binary64.of_code, Binary64.closed_form.
  rewrite (nth_map_lookup (λ e : string * nat, toLowerCase e.1) entries i e He).
  destruct i as [|j].
  - done.
  - replace (0 <? Z.of_nat (S j))%Z with true by (symmetry; apply Z.ltb_lt; lia).
    replace (Z.to_nat (Z.of_nat (S j) - 1)) with j by lia.
    rewrite list_lookup_imap.
    destruct (entries !! j) as [p|] eqn:Hp.
    + cbn [fmap option_fmap option_map chunk_at text].
      rewrite bonus_loop64. cbn [mbind completion_bind].
      by rewrite (nth_map_lookup (λ e : string * nat, toLowerCase e.1) entries j p Hp).
    + apply lookup_lt_Some in He. apply lookup_ge_None in Hp. lia.
Qed.

(** C3, amended: the scores [search] gives, in the arithmetic of the
    code.  The terms are the tokens of the lower-cased query between
    single spaces that are longer than 2.  Over every sequence of stored
    chunks, for every query whose terms are made of ordinary characters,
    [search] scores every chunk, and the score of a chunk is: the sum over
    the terms of the matches of the term in the lower-cased text, found
    from left to right without overlap; times the number of terms the text
    holds, a term the query repeats counting each time, divided by the
    number of terms, the quotient and the product each rounded to
    binary64; plus a half, added as many times as there are terms that the
    lower-cased text of the chunk stored just before holds.  The sum of the
    matches in a text is taken to stay within 2^53, up to where integers
    are added without error.  [search] returns these scored chunks
    ranked. *)
Theorem search_score_formula `{RegExpHost} (emb : string → list number)
    (entries : list (string * nat)) (query : string) (topK : nat) :
  let terms :=
    List.filter (λ term, (2 <? String.length term)%nat)
                (split " " (toLowerCase query)) in
  let texts := map (λ e, toLowerCase e.1) entries in
  forallb RegExp.literal terms = true →
  Forall (λ text, (Z.of_nat (Score.term_frequency terms text) ≤ 2 ^ 53)%Z)
         texts →
  ∃ l, Binary64.scoredChunks (stored emb entries) query = Normal l
       ∧ Binary64.search (stored emb entries) query topK
         = Normal (Binary64.ranked l topK)
       ∧ length l = length entries
       ∧ ∀ i e, entries !! i = Some e →
           l !! i = Some {| s_chunk := e.1; s_page := e.2;
                            s_score := Binary64.of_code terms texts i |}.
Proof.
  intros terms texts Hlit Hsums.
  assert (Hscore : ∀ i e, entries !! i = Some e →
            Binary64.score_chunk (imap (chunk_at emb) entries) terms
              (chunk_at emb i e)
            = Normal {| s_chunk := e.1; s_page := e.2;
                        s_score := Binary64.of_code terms texts i |}).
  { intros i e He. apply score_chunk64; [done | | done].
    rewrite Forall_forall in Hsums. apply Hsums. unfold texts.
    apply list_elem_of_In, (in_map (λ e : string * nat, toLowerCase e.1)),
      list_elem_of_In.
    by eapply list_elem_of_lookup_2. }
  unfold Binary64.search, Binary64.scoredChunks. rewrite stored_chunks.
  change (searchTerms query) with terms.
  destruct (mapM_Normal_Forall2
              (Binary64.score_chunk (imap (chunk_at emb) entries) terms)
              (imap (chunk_at emb) entries)) as (l & Hl & Hall).
  { intros c Hc. apply list_elem_of_lookup in Hc as [i Hi].
    rewrite list_lookup_imap in Hi.
    destruct (entries !! i) as [e|] eqn:He; [|done]. injection Hi as <-.
    eexists. by apply Hscore. }
  exists l. rewrite Hl. split; [done|]. split; [done|].
  pose proof (Forall2_length _ _ _ Hall) as Hlen. rewrite length_imap in Hlen.
  split; [done|]. intros i e He.
  assert (Hc : imap (chunk_at emb) entries !! i = Some (chunk_at emb i e)).
  { by rewrite list_lookup_imap, He. }
  destruct (Forall2_lookup_l _ _ _ _ _ Hall Hc) as (item & Hitem & Hitem').
  rewrite (Hscore i e He) in Hitem'. by injection Hitem' as <-.
Qed.

End Binary64Facts.

Lemma search_score_formula_witness :
  let query := "oil filter pump hose belt" in
  let entries :=
    [("Oil, oil, oil: filter, filter, filter", 1);
     ("Check the oil filter", 2);
     ("Close the cover", 3)] in
  let terms := ["oil"; "filter"; "pump"; "hose"; "belt"] in
  let texts := map (λ e, JsString.toLowerCase e.1) entries in
  ∃ l, Binary64.scoredChunks (H:=strict_host)
         (VectorStore.stored no_embedding entries) query = Normal l
       ∧ Binary64.search (H:=strict_host)
           (VectorStore.stored no_embedding entries) query 5
         = Normal (Binary64.ranked l 5)
       ∧ length l = length entries
       ∧ ∀ i e, entries !! i = Some e →
           l !! i = Some {| VectorStore.s_chunk := e.1;
                            VectorStore.s_page := e.2;
                            VectorStore.s_score :=
                              Binary64.of_code terms texts i |}.
Proof.
  intros query entries terms texts.
  apply (search_score_formula (H:=strict_host) no_embedding entries query 5);
    [reflexivity|].
  repeat constructor; by vm_compute.
Defined.

(** The scores of these three chunks.  The first holds two of the five
    terms, six times in all: 2/5 is rounded, and so is the product with 6,
    which gives 2.4000000000000004, a number greater than 12/5.  The
    second holds the two terms once each and follows a chunk that holds
    both: the rounded 0.8 and two halves, 1.8.  The third holds no term and follows a chunk
    that holds two. *)
Lemma scores_are_rounded :
  let terms := ["oil"; "filter"; "pump"; "hose"; "belt"] in
  let texts :=
    ["oil, oil, oil: filter, filter, filter"; "check the oil filter";
     "close the cover"] in
  Binary64.of_code terms texts 0
  = JsNumber.Finite (1351079888211149 # 562949953421312)
  ∧ (12 # 5 < 1351079888211149 # 562949953421312)%Q
  ∧ Binary64.of_code terms texts 1
    = JsNumber.Finite (8106479329266893 # 4503599627370496)
  ∧ Binary64.of_code terms texts 2 = JsNumber.Finite 1.
Proof. by vm_compute. Qed.

(** C3, as the claim states it, fails.  A token the query repeats counts
    each time it is found: for the query [filter filter housing] and a
    chunk that holds [filter] alone, the frequency 2 is multiplied by the
    rounded 2/3 and the score is 1.3333333333333333, where one distinct
    token found among three gives 0.6666666666666666.  And the query is
    split at spaces only: [oil] and [filter] separated by a tab are one
    term, which the chunk does not hold, and the score is 0, not 2. *)
Lemma search_score_differs :
  (∃ s, Binary64.scoredChunks (H:=strict_host)
          (VectorStore.stored no_embedding [("Replace the filter", 1)])
          "filter filter housing"
        = Normal [ {| VectorStore.s_chunk := "Replace the filter";
                      VectorStore.s_page := 1; VectorStore.s_score := s |} ]
        ∧ s = JsNumber.Finite (6004799503160661 # 4503599627370496)
        ∧ Binary64.of_spec "filter filter housing" ["replace the filter"] 0
          = JsNumber.Finite (6004799503160661 # 9007199254740992))
  ∧ (∃ s, Binary64.scoredChunks (H:=strict_host)
            (VectorStore.stored no_embedding [("Check the oil filter", 1)])
            ("oil" +:+ Examples.tab +:+ "filter")
          = Normal [ {| VectorStore.s_chunk := "Check the oil filter";
                        VectorStore.s_page := 1; VectorStore.s_score := s |} ]
          ∧ s = JsNumber.Finite 0
          ∧ Binary64.of_spec ("oil" +:+ Examples.tab +:+ "filter")
              ["check the oil filter"] 0
            = JsNumber.Finite 2).
Proof. split; eexists; (split; [by vm_compute|]); by vm_compute. Qed.

(** ** The ranking of the hits *)

Section RankFacts.
Import JsNumber JsArray VectorStore.

Lemma positive_sub_Finite (p q : Q) :
  positive (sub (Finite q) (Finite p)) = true ↔ (p < q)%Q.
Proof.
  simpl. rewrite negb_true_iff. split.
  - intros Hle. apply Qnot_le_lt. intros Hqp.
    assert (Hb : Qle_bool (q + - p) 0 = true).
    { apply Qle_bool_iff. lra. }
    congruence.
  - intros Hlt. destruct (Qle_bool (q + - p) 0) eqn:Hb; [|done].
    apply Qle_bool_iff in Hb. lra.
Qed.

Lemma insert_Permutation {A} (cmp : A → A → number) (x : A) (l : list A) :
  insert cmp x l ≡ₚ x :: l.
Proof.
  induction l as [|y l IH]; simpl; [done|].
  destruct (positive (cmp x y)); [|done].
  rewrite IH. apply Permutation_swap.
Qed.

Lemma sort_Permutation {A} (cmp : A → A → number) (l : list A) :
  sort cmp l ≡ₚ l.
Proof.
  induction l as [|x l IH]; simpl; [done|].
  unfold sort in IH. by rewrite insert_Permutation, IH.
Qed.

(** Descending order of the scores. *)
Lemma insert_descending (x : scored) (l : list scored) :
  Forall (λ a, is_finite a.(s_score) = true) (x :: l) →
  StronglySorted (λ a b, geq a.(s_score) b.(s_score)) l →
  StronglySorted (λ a b, geq a.(s_score) b.(s_score))
    (insert by_score_descending x l).
Proof.
  intros Hfin Hsorted. induction Hsorted as [|y l Hl IH Hy]; simpl.
  - repeat constructor.
  - apply Forall_cons in Hfin as [Hx Hfin].
    pose proof Hfin as Hfin'. apply Forall_cons in Hfin' as [Hyf Hlf].
    unfold by_score_descending at 1.
    destruct (s_score x) as [| |p] eqn:Ex; try done.
    destruct (s_score y) as [| |q] eqn:Ey; try done.
    destruct (positive (sub (Finite q) (Finite p))) eqn:Hpos.
    + apply positive_sub_Finite in Hpos.
      constructor.
      * apply IH. constructor; [by rewrite Ex | done].
      * rewrite insert_Permutation. constructor; [|by rewrite Ey].
        rewrite Ey, Ex. simpl. lra.
    + assert (Hqp : (q <= p)%Q).
      { apply Qnot_lt_le. intros Hlt. apply positive_sub_Finite in Hlt.
        congruence. }
      constructor.
      * constructor; [done | by rewrite Ey].
      * constructor; [rewrite Ex, Ey; exact Hqp|].
        eapply Forall_impl; [exact Hy|]. intros z. rewrite Ex.
        destruct (s_score z); simpl; try done. lra.
Qed.

Lemma sort_descending (l : list scored) :
  Forall (λ a, is_finite a.(s_score) = true) l →
  StronglySorted (λ a b, geq a.(s_score) b.(s_score))
    (sort by_score_descending l).
Proof.
  induction 1 as [|x l Hx Hl IH]; simpl; [constructor|].
  apply insert_descending; [|done].
  constructor; [done|]. fold (sort by_score_descending l).
  by rewrite sort_Permutation.
Qed.

(** Stability: the chunks of one score keep their order. *)
Lemma insert_class (q : Q) (x : scored) (l : list scored) :
  List.filter (λ a, score_is q (as_hit a)) (insert by_score_descending x l)
  = List.filter (λ a, score_is q (as_hit a)) (x :: l).
Proof.
  induction l as [|y l IH]; [done|].
  cbn [insert]. destruct (positive (by_score_descending x y)) eqn:Hpos; [|done].
  cbn [List.filter] in *. rewrite IH.
  destruct (score_is q (as_hit x)) eqn:Hx, (score_is q (as_hit y)) eqn:Hy;
    try done.
  exfalso. unfold score_is, as_hit, by_score_descending in *. simpl in *.
  destruct (s_score x) as [| |p]; try done.
  destruct (s_score y) as [| |p']; try done.
  apply positive_sub_Finite in Hpos.
  apply Qeq_bool_iff in Hx, Hy. lra.
Qed.

Lemma sort_class (q : Q) (l : list scored) :
  List.filter (λ a, score_is q (as_hit a)) (sort by_score_descending l)
  = List.filter (λ a, score_is q (as_hit a)) l.
Proof.
  induction l as [|x l IH]; [done|].
  cbn [sort foldr]. rewrite insert_class. cbn [List.filter].
  fold (sort by_score_descending l). by rewrite IH.
Qed.

Lemma filter_map_commute {A B} (p : B → bool) (f : A → B) (l : list A) :
  List.filter p (map f l) = map f (List.filter (λ a, p (f a)) l).
Proof.
  induction l as [|x l IH]; simpl; [done|].
  destruct (p (f x)); simpl; by rewrite IH.
Qed.

Lemma filter_take_prefix {A} (p : A → bool) (k : nat) (l : list A) :
  List.filter p (take k l) `prefix_of` List.filter p l.
Proof.
  exists (List.filter p (drop k l)).
  by rewrite <- List.filter_app, take_drop.
Qed.

Lemma filter_none {A} (p : A → bool) (l : list A) :
  (∀ a, p a = false) → List.filter p l = [].
Proof.
  intros Hp. induction l as [|x l IH]; simpl; [done|]. by rewrite Hp.
Qed.

(** Whether a chunk of a given score is kept depends on the score alone. *)
Lemma class_positive (q : Q) (a : scored) :
  score_is q (as_hit a) = true →
  positive a.(s_score) = negb (Qle_bool q 0).
Proof.
  unfold score_is, as_hit. simpl.
  destruct (s_score a) as [| |p]; try done. simpl.
  intros Hpq. apply Qeq_bool_iff in Hpq. f_equal.
  destruct (Qle_bool q 0) eqn:Hq.
  - apply Qle_bool_iff. apply Qle_bool_iff in Hq. by rewrite Hpq.
  - destruct (Qle_bool p 0) eqn:Hp; [|done].
    apply Qle_bool_iff in Hp. rewrite Hpq in Hp.
    apply Qle_bool_iff in Hp. congruence.
Qed.

Lemma descending_as_hit (k : list scored) :
  StronglySorted (λ a b, geq a.(s_score) b.(s_score)) k →
  StronglySorted (λ a b, geq a.(h_score) b.(h_score)) (map as_hit k).
Proof.
  induction 1 as [|a k Hk IH Ha]; simpl; constructor; [done|].
  apply Forall_forall. intros h Hh.
  apply list_elem_of_In, in_map_iff in Hh as (b & <- & Hb).
  rewrite Forall_forall in Ha. apply Ha. by apply list_elem_of_In.
Qed.

(** What [ranked] returns, for scores that are numbers or [NaN]. *)
Lemma ranked_properties (l : list scored) (topK : nat) :
  Forall (λ a, a.(s_score) = NaN ∨ is_finite a.(s_score) = true) l →
  Forall (λ h, positive h.(h_score) = true) (ranked l topK)
  ∧ length (ranked l topK) ≤ topK
  ∧ StronglySorted (λ a b, geq a.(h_score) b.(h_score)) (ranked l topK)
  ∧ (∀ h, h ∈ ranked l topK → h ∈ map as_hit l)
  ∧ (∀ q, List.filter (score_is q) (ranked l topK)
          `prefix_of` List.filter (score_is q) (map as_hit l)).
Proof.
  intros Hl. unfold ranked, slice. rewrite Nat.sub_0_r, drop_0.
  set (kept := List.filter (λ item, positive item.(s_score)) l).
  assert (Hpos : Forall (λ a, positive a.(s_score) = true) kept).
  { apply Forall_forall. intros a Ha.
    by apply elem_of_List_filter in Ha as [_ Ha]. }
  assert (Hfin : Forall (λ a, is_finite a.(s_score) = true) kept).
  { apply Forall_forall. intros a Ha.
    apply elem_of_List_filter in Ha as [Ha Hp].
    rewrite Forall_forall in Hl. destruct (Hl a Ha) as [Hn|]; [|done].
    by rewrite Hn in Hp. }
  assert (Hin : ∀ a, a ∈ take topK (sort by_score_descending kept) → a ∈ kept).
  { intros a Ha. apply elem_of_take in Ha as (i & Ha & _).
    apply list_elem_of_lookup_2 in Ha. by rewrite sort_Permutation in Ha. }
  split; [|split; [|split; [|split]]].
  - apply Forall_forall. intros h Hh.
    apply list_elem_of_In, in_map_iff in Hh as (a & <- & Ha).
    apply list_elem_of_In, Hin in Ha. rewrite Forall_forall in Hpos.
    by apply Hpos.
  - rewrite length_map, length_take. lia.
  - pose proof (sort_descending kept Hfin) as Hsorted.
    rewrite <- (take_drop topK (sort by_score_descending kept)) in Hsorted.
    apply StronglySorted_app_1_l in Hsorted.
    by apply descending_as_hit.
  - intros h Hh. apply list_elem_of_In, in_map_iff in Hh as (a & <- & Ha).
    apply list_elem_of_In, Hin, elem_of_List_filter in Ha as [Ha _].
    apply list_elem_of_In, in_map. by apply list_elem_of_In.
  - intros q. rewrite !filter_map_commute.
    assert (Hpre : List.filter (λ a, score_is q (as_hit a))
                     (take topK (sort by_score_descending kept))
                   `prefix_of` List.filter (λ a, score_is q (as_hit a)) l).
    { etransitivity; [apply filter_take_prefix|].
      rewrite sort_class. unfold kept. rewrite filter_filter_and.
      destruct (Qle_bool q 0) eqn:Hq.
      - rewrite filter_none; [apply prefix_nil|].
        intros a. destruct (score_is q (as_hit a)) eqn:Ha.
        + by rewrite (class_positive q a Ha), Hq.
        + by rewrite andb_false_r.
      - erewrite List.filter_ext; [done|].
        intros a. simpl. destruct (score_is q (as_hit a)) eqn:Ha.
        + by rewrite (class_positive q a Ha), Hq.
        + by rewrite andb_false_r. }
    destruct Hpre as [rest ->]. exists (map as_hit rest). by rewrite map_app.
Qed.

End RankFacts.

(** ** What [search] returns *)

Section SearchResults.
Import JsString JsNumber JsArray VectorStore.
Context `{RegExpHost}.

Lemma frequency_loop_finite (terms : list string) (text : string) (q : Q)
    (y : number) :
  forEach terms
    (λ score term,
       termCount ← RegExp.match_count term text;
       Normal (add score (of_nat termCount)))
    (Finite q)
  = Normal y →
  is_finite y = true.
Proof.
  revert q. induction terms as [|term terms IH]; intros q; cbn [forEach].
  - by intros [= <-].
  - destruct (RegExp.match_count term text) as [n|e]; [|done].
    cbn [mbind completion_bind add of_nat]. apply IH.
Qed.

(** A share [u/n] of the terms is a number, or [NaN] when there is no
    term. *)
Lemma coverage_number (u n : nat) :
  u ≤ n →
  div (of_nat u) (of_nat n) = NaN ∨ is_finite (div (of_nat u) (of_nat n)) = true.
Proof.
  intros Hun. unfold of_nat, div.
  destruct (Qzero (inject_Z (Z.of_nat n))) eqn:Hn; [|by right].
  left. destruct n as [|n]; [|done].
  by replace u with 0 by lia.
Qed.

Lemma bonus_loop_number (terms : list string) (prev : string) (x y : number) :
  x = NaN ∨ is_finite x = true →
  forEach terms
    (λ score term, Normal (if includes prev term then add score half else score))
    x
  = Normal y →
  y = NaN ∨ is_finite y = true.
Proof.
  revert x. induction terms as [|term terms IH]; intros x Hx; cbn [forEach].
  - by intros [= <-].
  - cbn [mbind completion_bind]. apply IH.
    destruct (includes prev term); [|done].
    destruct Hx as [->|Hx]; [by left|]. right. by destruct x.
Qed.

(** A score is never infinite. *)
Lemma score_chunk_number (all : list chunk) (terms : list string) (c : chunk)
    (item : scored) :
  score_chunk all terms c = Normal item →
  item.(s_score) = NaN ∨ is_finite item.(s_score) = true.
Proof.
  unfold score_chunk.
  destruct (forEach terms _ (of_nat 0)) as [score|e] eqn:Hfreq; [|done].
  apply frequency_loop_finite in Hfreq.
  cbn [mbind completion_bind].
  set (coverage := div _ _).
  assert (Hmul : mul score coverage = NaN ∨ is_finite (mul score coverage) = true).
  { destruct (coverage_number
                (length (List.filter (includes (toLowerCase c.(text))) terms))
                (length terms)) as [Hc|Hc].
    - apply List.filter_length_le.
    - left. fold coverage in Hc. rewrite Hc. by destruct score.
    - right. fold coverage in Hc. destruct score, coverage; done. }
  destruct (0 <? indexOf all c)%Z.
  - destruct (all !! _) as [prev|]; [|done].
    destruct (forEach terms _ (mul score coverage)) as [y|e] eqn:Hy; [|done].
    cbn [mbind completion_bind]. intros [= <-]. cbn [s_score].
    by eapply bonus_loop_number.
  - cbn [mbind completion_bind]. by intros [= <-].
Qed.

Lemma mapM_Normal_inv {A B} (f : A → completion B) (l : list A) (k : list B) :
  mapM f l = Normal k → Forall2 (λ x y, f x = Normal y) l k.
Proof.
  revert k. induction l as [|x l IH]; intros k; cbn [mapM].
  - intros [= <-]. constructor.
  - destruct (f x) as [y|e] eqn:Hy; [|done]. cbn [mbind completion_bind].
    destruct (mapM f l) as [k'|e]; [|done]. cbn [mbind completion_bind].
    intros [= <-]. constructor; [done | by apply IH].
Qed.

(** X1: the hits [search] returns: every score is greater than 0, so no chunk
    of score 0 is among them; there are at most [topK]; the scores
    descend; every hit is a stored chunk with the score it was given; and
    the hits of one score are the first chunks of that score, in the order
    of their arrival. *)
Lemma search_hits_ranked (this : t) (query : string) (topK : nat)
    (hits : list hit) :
  search this query topK = Normal hits →
  Forall (λ h, positive h.(h_score) = true) hits
  ∧ length hits ≤ topK
  ∧ StronglySorted (λ a b, geq a.(h_score) b.(h_score)) hits
  ∧ ∃ l, scoredChunks this query = Normal l
         ∧ (∀ h, h ∈ hits → h ∈ map as_hit l)
         ∧ (∀ q, List.filter (score_is q) hits
                 `prefix_of` List.filter (score_is q) (map as_hit l)).
Proof.
  unfold search.
  destruct (scoredChunks this query) as [l|e] eqn:Hl; [|done].
  cbn [mbind completion_bind]. intros [= <-].
  assert (Hnum : Forall (λ a, a.(s_score) = NaN ∨ is_finite a.(s_score) = true) l).
  { apply mapM_Normal_inv in Hl. apply Forall_forall. intros a Ha.
    apply list_elem_of_lookup in Ha as [i Ha].
    destruct (Forall2_lookup_r _ _ _ _ _ Hl Ha) as (c & _ & Hc).
    by eapply score_chunk_number. }
  destruct (ranked_properties l topK Hnum) as (H1 & H2 & H3 & H4 & H5).
  repeat split; try done. exists l. by repeat split.
Qed.

Lemma ranked_none_positive (l : list scored) (topK : nat) :
  Forall (λ item, positive item.(s_score) = false) l → ranked l topK = [].
Proof.
  intros Hl. unfold ranked, slice.
  replace (List.filter (λ item, positive item.(s_score)) l) with (@nil scored).
  - by destruct topK.
  - induction Hl as [|x l Hx Hl IH]; simpl; [done|]. by rewrite Hx.
Qed.

Lemma frequency_loop_total (terms : list string) (text : string) (q : Q) :
  (∀ term, term ∈ terms → ∃ n, RegExp.match_count term text = Normal n) →
  ∃ q', forEach terms
          (λ score term,
             termCount ← RegExp.match_count term text;
             Normal (add score (of_nat termCount)))
          (Finite q)
        = Normal (Finite q').
Proof.
  revert q. induction terms as [|term terms IH]; intros q Hok; cbn [forEach].
  - by exists q.
  - destruct (Hok term) as [n ->]; [set_solver|].
    cbn [mbind completion_bind add of_nat]. apply IH.
    intros t Ht. apply Hok. set_solver.
Qed.

Lemma bonus_loop_none (terms : list string) (prev : string) (x : number) :
  (∀ term, term ∈ terms → includes prev term = false) →
  forEach terms
    (λ score term, Normal (if includes prev term then add score half else score))
    x
  = Normal x.
Proof.
  induction terms as [|term terms IH]; intros Hnone; cbn [forEach]; [done|].
  rewrite Hnone by set_solver. cbn [mbind completion_bind].
  apply IH. intros t Ht. apply Hnone. set_solver.
Qed.

Lemma filter_none_elem {A} (p : A → bool) (l : list A) :
  (∀ a, a ∈ l → p a = false) → List.filter p l = [].
Proof.
  induction l as [|x l IH]; intros Hp; simpl; [done|].
  rewrite Hp by set_solver. apply IH. intros a Ha. apply Hp. set_solver.
Qed.

(** No term found in any chunk, and every term accepted as a pattern:
    nothing is returned. *)
Lemma search_nothing_found (this : t) (query : string) (topK : nat) :
  (∀ term c, term ∈ searchTerms query → c ∈ this.(chunks) →
             ∃ n, RegExp.match_count term (toLowerCase c.(text)) = Normal n) →
  (∀ term c, term ∈ searchTerms query → c ∈ this.(chunks) →
             includes (toLowerCase c.(text)) term = false) →
  search this query topK = Normal [].
Proof.
  intros Hok Hnone. unfold search, scoredChunks.
  assert (Hscore : ∀ c, c ∈ this.(chunks) →
            ∃ item, score_chunk this.(chunks) (searchTerms query) c = Normal item
                    ∧ positive item.(s_score) = false).
  { intros c Hc. unfold score_chunk.
    destruct (frequency_loop_total (searchTerms query) (toLowerCase c.(text)) 0)
      as [q Hq]; [intros; by apply Hok|].
    change (of_nat 0) with (Finite 0) at 1. rewrite Hq.
    cbn [mbind completion_bind].
    rewrite filter_none_elem by (intros; by apply Hnone). cbn [length].
    set (score := mul _ _).
    assert (Hzero : positive score = false).
    { unfold score, of_nat, div.
      destruct (length (searchTerms query)) as [|n]; [done|].
      change (Qzero (inject_Z (Z.of_nat (S n)))) with false. cbn iota.
      cbn [mul positive]. apply negb_false_iff, Qle_bool_iff.
      apply Qle_lteq. right. change (inject_Z (Z.of_nat 0)) with 0%Q.
      unfold Qdiv. ring. }
    destruct (0 <? indexOf this.(chunks) c)%Z eqn:Hpos.
    - destruct (before_index_defined this.(chunks) c Hpos) as [prev Hprev].
      rewrite Hprev, bonus_loop_none.
      + cbn [mbind completion_bind]. by eexists.
      + intros term Hterm. apply Hnone; [done|].
        by eapply list_elem_of_lookup_2.
    - cbn [mbind completion_bind]. by eexists. }
  destruct (mapM_Normal_Forall2 (score_chunk this.(chunks) (searchTerms query))
              this.(chunks)) as (l & -> & Hall).
  { intros c Hc. destruct (Hscore c Hc) as (item & -> & _). by eexists. }
  cbn [mbind completion_bind]. rewrite ranked_none_positive; [done|].
  apply Forall_forall. intros item Hitem.
  apply list_elem_of_lookup in Hitem as [i Hi].
  destruct (Forall2_lookup_r _ _ _ _ _ Hall Hi) as (c & Hc & Hsc).
  destruct (Hscore c) as (item' & Hitem' & Hpos); [by eapply list_elem_of_lookup_2|].
  rewrite Hitem' in Hsc. by injection Hsc as <-.
Qed.

End SearchResults.

(** C4: the code departs from the claim where a term is no pattern.  The
    term [c++] occurs in no stored chunk, and [search] does not return the
    empty list: it throws. *)
Lemma search_throws_for_absent_term :
  let store :=
    VectorStore.stored no_embedding
      [("Check the oil level before every start.", 1)] in
  VectorStore.searchTerms "c++" = ["c++"]
  ∧ JsString.includes
      (JsString.toLowerCase "Check the oil level before every start.") "c++"
    = false
  ∧ VectorStore.search (H:=strict_host) store "c++" 5
    = Throw (SyntaxError "Invalid regular expression: Nothing to repeat").
Proof. by vm_compute. Qed.

(** ** The batch orchestrator *)

Section BatchFacts.
Import Json Batch.
Context `{ExtractionService}.

(** The loop of the callback ends within [MAX_RETRIES] iterations. *)
Lemma attempts_total (fuel position : nat) (chunk : string) (retries : nat)
    (now : N) (log : list (nat * nat)) :
  MAX_RETRIES ≤ fuel + retries →
  is_Some (attempts fuel position chunk retries now log).
Proof.
  revert retries now log.
  induction fuel as [|fuel IH]; intros retries now log Hfuel.
  - cbn [attempts]. destruct (Nat.ltb_spec retries MAX_RETRIES); [lia | done].
  - cbn [attempts]. destruct (Nat.ltb_spec retries MAX_RETRIES); [|done].
    destruct (reply_of _); [apply IH; lia | | done].
    destruct (S retries =? MAX_RETRIES); [done | apply IH; lia].
Qed.

(** How it ends depends on the service alone, not on the time. *)
Lemma attempts_result (fuel position : nat) (chunk : string) (retries : nat)
    (now now' : N) (log log' : list (nat * nat)) :
  result <$> attempts fuel position chunk retries now log
  = result <$> attempts fuel position chunk retries now' log'.
Proof.
  revert retries now now' log log'.
  induction fuel as [|fuel IH]; intros retries now now' log log';
    cbn [attempts].
  - by destruct (retries <? MAX_RETRIES).
  - destruct (retries <? MAX_RETRIES); [|done].
    destruct (reply_of _); [apply IH | | done].
    destruct (S retries =? MAX_RETRIES); [done | apply IH].
Qed.

(** The calls made are added to the log, and a promise whose loop is
    entered makes a call. *)
Lemma attempts_calls (fuel position : nat) (chunk : string) (retries : nat)
    (now : N) (log : list (nat * nat)) (k : task) :
  attempts fuel position chunk retries now log = Some k →
  (∀ call, call ∈ log → call ∈ k.(calls))
  ∧ (retries < MAX_RETRIES → (position, retries) ∈ k.(calls)).
Proof.
  revert retries now log.
  induction fuel as [|fuel IH]; intros retries now log; cbn [attempts].
  - destruct (Nat.ltb_spec retries MAX_RETRIES); [done|].
    intros [= <-]. simpl. split; [done | lia].
  - destruct (Nat.ltb_spec retries MAX_RETRIES).
    2: { intros [= <-]. simpl. split; [done | lia]. }
    assert (Hlog : ∀ call, call ∈ log ++ [(position, retries)] →
                     call ∈ log ∨ call = (position, retries)) by set_solver.
    destruct (reply_of _).
    + intros Hk. apply IH in Hk as [Hk _]. split; intros; apply Hk; set_solver.
    + destruct (S retries =? MAX_RETRIES).
      * intros [= <-]. simpl. split; intros; set_solver.
      * intros Hk. apply IH in Hk as [Hk _].
        split; intros; apply Hk; set_solver.
    + intros [= <-]. simpl. split; intros; set_solver.
Qed.

Lemma process_chunk_settles (position : nat) (chunk : string) (now : N) :
  ∃ k, process_chunk position chunk now = Some k
       ∧ k.(result) = verdict position chunk
       ∧ (position, 0) ∈ k.(calls).
Proof.
  unfold process_chunk, verdict, process_chunk.
  destruct (attempts_total MAX_RETRIES position chunk 0 now []) as [k Hk];
    [lia|].
  exists k. split; [done|]. split.
  - pose proof (attempts_result MAX_RETRIES position chunk 0 now 0 [] []) as Hr.
    rewrite Hk in Hr.
    destruct (attempts MAX_RETRIES position chunk 0 0 []); [|done].
    by injection Hr.
  - apply attempts_calls in Hk as [_ Hk]. apply Hk. unfold MAX_RETRIES. lia.
Qed.

(** A promise is rejected only when its last call failed: the chunk
    exhausted its retries, and the rejection carries the last cause. *)
Lemma verdict_rejected (position : nat) (chunk : string) (e : exn) :
  verdict position chunk = Throw e →
  ∃ error,
    reply_of (respond position chunk (MAX_RETRIES - 1)) = Failed error
    ∧ e = exhausted error.
Proof.
  unfold verdict, process_chunk, MAX_RETRIES. simpl.
  destruct (reply_of (respond position chunk 0)); simpl;
    destruct (reply_of (respond position chunk 1)); simpl;
    destruct (reply_of (respond position chunk 2)); simpl; try done;
    intros [= <-]; by eexists.
Qed.

(** The promises of a batch: one per chunk, settled as [verdict] says,
    each after a first call for its chunk. *)
Lemma batch_promises (start : nat) (now : N) (batch : list string) (off : nat) :
  ∃ tasks,
    mapM (λ '(index, chunk), process_chunk (start + index) chunk now)
         (imap (λ i c, (off + i, c)) batch)
    = Some tasks
    ∧ map result tasks = imap (λ i c, verdict (start + off + i) c) batch
    ∧ ∀ i, i < length batch → (start + off + i, 0) ∈ concat (map calls tasks).
Proof.
  revert off. induction batch as [|c batch IH]; intros off.
  - exists []. split; [done|]. split; [done|]. simpl. lia.
  - destruct (process_chunk_settles (start + (off + 0)) c now)
      as (k & Hk & Hres & Hcall).
    destruct (IH (S off)) as (tasks & Htasks & Hresults & Hcalls).
    exists (k :: tasks). cbn [imap mapM]. rewrite Hk.
    cbn [mbind option_bind].
    rewrite (imap_ext _ (λ i c, (S off + i, c)) batch)
      by (intros; simpl; f_equal; lia).
    rewrite Htasks. cbn [mbind option_bind mret option_ret map concat].
    split; [done|]. split.
    + rewrite Hres, Hresults. f_equal; [f_equal; lia|].
      apply imap_ext. intros i x _. simpl. f_equal. lia.
    + intros [|i] Hi.
      * apply elem_of_app. left. by replace (start + off + 0) with (start + (off + 0)) by lia.
      * apply elem_of_app. right.
        replace (start + off + S i) with (start + S off + i) by lia.
        apply Hcalls. simpl in Hi. lia.
Qed.

Lemma first_rejection_None (tasks : list task) :
  first_rejection tasks = None →
  map result tasks = map Normal (values tasks).
Proof.
  induction tasks as [|k tasks IH]; [done|].
  cbn [first_rejection values omap list_omap map].
  destruct (result k) as [v|e].
  - intros Hnone. cbn [map]. by rewrite IH.
  - by destruct (first_rejection tasks) as [[t e']|]; [destruct (_ <=? _)%N|].
Qed.

Lemma first_rejection_Some (tasks : list task) (t : N) (e : exn) :
  first_rejection tasks = Some (t, e) →
  ∃ i k, tasks !! i = Some k ∧ k.(result) = Throw e.
Proof.
  induction tasks as [|k tasks IH]; [done|]. cbn [first_rejection].
  destruct (result k) as [v|e0] eqn:Hk.
  - intros Hrest. destruct (IH Hrest) as (i & k' & Hi & Hk').
    by exists (S i), k'.
  - destruct (first_rejection tasks) as [[t' e']|].
    + destruct (_ <=? _)%N; intros [= <- <-].
      * by exists 0, k.
      * destruct IH as (i & k' & Hi & Hk'); [done|]. by exists (S i), k'.
    + intros [= <- <-]. by exists 0, k.
Qed.

(** [filter(Boolean)] on the values of fulfilled promises. *)
Lemma delivered_values (vs : list (option value)) :
  omap delivered (map Normal vs) = omap id (List.filter Boolean vs).
Proof.
  induction vs as [|v vs IH]; [done|].
  cbn [map omap list_omap List.filter]. rewrite IH.
  destruct v as [d|]; cbn [delivered Boolean]; [|done].
  by destruct (truthy d).
Qed.

Lemma totalBatches_cover (chunks : list string) :
  length chunks ≤ totalBatches chunks * BATCH_SIZE.
Proof.
  unfold totalBatches, BATCH_SIZE.
  pose proof (Nat.div_mod_eq (length chunks + 2 - 1) 2).
  pose proof (Nat.mod_upper_bound (length chunks + 2 - 1) 2). lia.
Qed.

Lemma batch_in_range (chunks : list string) (b : nat) :
  b < totalBatches chunks → b * BATCH_SIZE < length chunks.
Proof.
  unfold totalBatches, BATCH_SIZE.
  pose proof (Nat.div_mod_eq (length chunks + 2 - 1) 2).
  pose proof (Nat.mod_upper_bound (length chunks + 2 - 1) 2). lia.
Qed.

Lemma batch_slice (chunks : list string) (b : nat) :
  JsArray.slice (b * BATCH_SIZE)
    (Nat.min (b * BATCH_SIZE + BATCH_SIZE) (length chunks)) chunks
  = take BATCH_SIZE (drop (b * BATCH_SIZE) chunks).
Proof.
  unfold JsArray.slice.
  destruct (Nat.le_gt_cases (b * BATCH_SIZE + BATCH_SIZE) (length chunks)).
  - f_equal. lia.
  - rewrite !take_ge; [done | |]; rewrite length_drop; lia.
Qed.

Lemma lookup_map {A B} (f : A → B) (l : list A) (i : nat) :
  map f l !! i = f <$> l !! i.
Proof.
  revert i. induction l as [|x l IH]; intros [|i]; simpl;
    first [done | apply IH].
Qed.

Lemma batch_lookup (chunks : list string) (b j : nat) (c : string) :
  take BATCH_SIZE (drop (b * BATCH_SIZE) chunks) !! j = Some c →
  chunks !! (b * BATCH_SIZE + j) = Some c.
Proof.
  intros Hj. apply lookup_take_Some in Hj as [Hj _].
  by rewrite lookup_drop in Hj.
Qed.

(** The loop over the batches, from the batch [b] on. *)
Lemma batches_spec (chunks : list string) (n b : nat) (now : N)
    (processed : list value) (log : list (nat * nat)) :
  b + n = totalBatches chunks →
  processed = omap delivered (imap verdict (take (b * BATCH_SIZE) chunks)) →
  (∀ i c, take (b * BATCH_SIZE) chunks !! i = Some c →
          ∃ v, verdict i c = Normal v) →
  (∀ i, i < length (take (b * BATCH_SIZE) chunks) → (i, 0) ∈ log) →
  ∃ r, batches chunks (seq b n) now processed log = Some r
       ∧ match r.(returned) with
         | Normal results =>
             results = omap delivered (imap verdict chunks)
             ∧ (∀ i c, chunks !! i = Some c → ∃ v, verdict i c = Normal v)
             ∧ (∀ i, i < length chunks → (i, 0) ∈ r.(requests))
         | Throw e => ∃ i c, chunks !! i = Some c ∧ verdict i c = Throw e
         end.
Proof.
  revert b now processed log.
  induction n as [|n IH]; intros b now processed log Hb Hprocessed Hfulfilled Hlog.
  - cbn [seq batches]. eexists. split; [done|]. cbn [returned requests].
    rewrite take_ge in * by (pose proof (totalBatches_cover chunks); lia).
    done.
  - cbn [seq batches]. rewrite batch_slice.
    set (batch := take BATCH_SIZE (drop (b * BATCH_SIZE) chunks)).
    destruct (batch_promises (b * BATCH_SIZE) now batch 0)
      as (tasks & Htasks & Hres & Hcalls).
    rewrite (imap_ext pair (λ i c, (0 + i, c)) batch) by done.
    rewrite Htasks. cbn [mbind option_bind].
    pose proof (batch_in_range chunks b ltac:(lia)) as Hrange.
    unfold Promise_all.
    destruct (first_rejection tasks) as [[t e]|] eqn:Hrej.
    + eexists. split; [done|]. cbn [returned].
      apply first_rejection_Some in Hrej as (j & k & Hj & Hk).
      assert (Hv : map result tasks !! j = Some (Throw e)).
      { by rewrite lookup_map, Hj, <- Hk. }
      rewrite Hres, list_lookup_imap in Hv.
      destruct (batch !! j) as [c|] eqn:Hc; [|done]. injection Hv as Hv.
      exists (b * BATCH_SIZE + j), c. split; [by apply batch_lookup|].
      by rewrite Nat.add_0_r in Hv.
    + pose proof (first_rejection_None tasks Hrej) as Hnormal.
      assert (Htake : take (S b * BATCH_SIZE) chunks
                      = take (b * BATCH_SIZE) chunks ++ batch).
      { replace (S b * BATCH_SIZE) with (b * BATCH_SIZE + BATCH_SIZE) by lia.
        unfold batch. by rewrite take_take_drop. }
      assert (Hlen : length (take (b * BATCH_SIZE) chunks) = b * BATCH_SIZE).
      { rewrite length_take. lia. }
      apply IH.
      * lia.
      * rewrite Htake, imap_app, omap_app, <- Hprocessed. f_equal.
        rewrite <- delivered_values, <- Hnormal, Hres. f_equal.
        apply imap_ext. intros i c _. simpl. f_equal. lia.
      * intros i c. rewrite Htake. intros Hi.
        apply lookup_app_Some in Hi as [Hi|[Hge Hi]]; [by apply Hfulfilled|].
        rewrite Hlen in Hge, Hi.
        assert (Hv : map result tasks !! (i - b * BATCH_SIZE)
                     = Some (verdict i c)).
        { rewrite Hres, list_lookup_imap, Hi. simpl. do 2 f_equal. lia. }
        rewrite Hnormal, lookup_map in Hv.
        destruct (values tasks !! _) as [v|]; [|done]. injection Hv as <-.
        by eexists.
      * intros i. rewrite Htake, length_app, Hlen. intros Hi.
        apply elem_of_app.
        destruct (Nat.lt_ge_cases i (b * BATCH_SIZE)) as [Hlt|Hge].
        -- left. apply Hlog. lia.
        -- right. replace i with (b * BATCH_SIZE + 0 + (i - b * BATCH_SIZE)) by lia.
           apply Hcalls. lia.
Qed.

(** Every call of [processChunksInBatches] ends.  It fails only with the
    rejection of a chunk that exhausted its retries; and when it returns,
    it returns, in the order of the chunks, the values that
    [filter(Boolean)] keeps, after a call of the service for every
    chunk. *)
Lemma process_spec (chunks : list string) :
  ∃ r, processChunksInBatches chunks = Some r
       ∧ match r.(returned) with
         | Normal results =>
             results = omap delivered (imap verdict chunks)
             ∧ (∀ i c, chunks !! i = Some c → ∃ v, verdict i c = Normal v)
             ∧ (∀ i, i < length chunks → (i, 0) ∈ r.(requests))
         | Throw e => ∃ i c, chunks !! i = Some c ∧ verdict i c = Throw e
         end.
Proof.
  unfold processChunksInBatches. apply batches_spec; try done.
  simpl. lia.
Qed.

End BatchFacts.

(** ** What the batch orchestrator returns *)

Section ProcessFacts.
Import Json Batch.

Lemma omap_all_Some {A B} (f : A → option B) (l : list A) :
  (∀ j y, l !! j = Some y → is_Some (f y)) →
  length (omap f l) = length l
  ∧ ∀ i x, l !! i = Some x → omap f l !! i = f x.
Proof.
  induction l as [|y l IH]; intros Hall; [done|].
  cbn [omap list_omap].
  destruct (Hall 0 y) as [b Hb]; [done|]. rewrite Hb.
  destruct IH as [IHlen IHlookup].
  { intros j z Hj. by apply (Hall (S j)). }
  split; [simpl; by rewrite IHlen|].
  intros [|i] x Hi; simpl in *.
  - injection Hi as <-. by rewrite Hb.
  - by apply IHlookup.
Qed.

(** When [filter(Boolean)] drops nothing, the results are those of the
    chunks, position by position. *)
Lemma process_aligned `{ExtractionService} (chunks : list string) :
  (∀ i c, chunks !! i = Some c → is_Some (delivered (verdict i c))) →
  ∃ r results,
    processChunksInBatches chunks = Some r
    ∧ r.(returned) = Normal results
    ∧ length results = length chunks
    ∧ ∀ i c, chunks !! i = Some c → results !! i = delivered (verdict i c).
Proof.
  intros Hall. destruct (process_spec chunks) as (r & Hr & Hspec).
  exists r. destruct (returned r) as [results|e].
  - destruct Hspec as (-> & _ & _). eexists. split; [done|]. split; [done|].
    destruct (omap_all_Some delivered (imap verdict chunks)) as [Hlen Hlookup].
    { intros j v Hj. rewrite list_lookup_imap in Hj.
      destruct (chunks !! j) as [c'|] eqn:Hc'; [|done].
      injection Hj as <-. by apply (Hall j). }
    split; [by rewrite Hlen, length_imap|].
    intros i c Hc. apply Hlookup. by rewrite list_lookup_imap, Hc.
  - exfalso. destruct Hspec as (i & c & Hc & Hv).
    destruct (Hall i c Hc) as [d Hd]. by rewrite Hv in Hd.
Qed.

(** Against a service that limits every call, every chunk is dropped and
    no failure is reported. *)
Lemma always_limited_drops_all (chunks : list string) :
  ∃ r, processChunksInBatches (H:=Examples.always_limited) chunks = Some r
       ∧ r.(returned) = Normal [].
Proof.
  destruct (process_spec (H:=Examples.always_limited) chunks)
    as (r & Hr & Hspec).
  exists r. split; [done|].
  destruct (returned r) as [results|e].
  - destruct Hspec as (-> & _ & _). f_equal. clear Hr.
    assert (Hnone : ∀ (f : nat → string → completion (option value)) l,
              (∀ i c, f i c = Normal None) → omap delivered (imap f l) = []).
    { intros f l. revert f.
      induction l as [|c l IH]; intros f Hf; [done|].
      cbn [imap omap list_omap]. rewrite Hf. cbn [delivered].
      apply IH. intros i c'. apply Hf. }
    by apply Hnone.
  - destruct Hspec as (i & c & _ & Hv). done.
Qed.

End ProcessFacts.

(** C1: the code departs from the claim where every call for a chunk is
    answered with status 429.  The loop of the chunk ends after the third
    call without a result and without an exception, [filter(Boolean)]
    removes the missing result, and [processChunksInBatches] returns the
    empty sequence for a sequence of one chunk: the content of the chunk is
    lost and no failure is reported; the handler of [/api/gemini] answers
    with an empty summary. *)
Lemma rate_limited_chunk_is_dropped :
  Batch.verdict (H:=Examples.always_limited) 0 "Tighten the four bolts."
  = Normal None
  ∧ Batch.processChunksInBatches (H:=Examples.always_limited)
      ["Tighten the four bolts."]
    = Some {| Batch.ended_at := 27300;
              Batch.requests := [(0, 0); (0, 1); (0, 2)];
              Batch.returned := Normal [] |}
  ∧ @Server.summarize Examples.whole Examples.always_limited
      "Tighten the four bolts."
    = Some (Server.Summary200
              {| Merge.title := "Technical Manual Summary";
                 Merge.prerequisites := []; Merge.warnings := [];
                 Merge.steps := [] |}).
Proof. by vm_compute. Qed.

(** C2: the code departs from the claim after a dropped chunk.  The first
    of two chunks is limited at every call and the second is extracted:
    the sequence returned holds, at position 0, the result of the chunk at
    position 1. *)
Lemma results_shift_after_a_drop :
  let chunks := ["Remove the cover."; "Replace the filter."] in
  Batch.verdict (H:=Examples.first_limited) 0 "Remove the cover." = Normal None
  ∧ Batch.verdict (H:=Examples.first_limited) 1 "Replace the filter."
    = Normal (Some (Examples.steps_of "Replace the filter."))
  ∧ ∃ r, Batch.processChunksInBatches (H:=Examples.first_limited) chunks = Some r
         ∧ r.(Batch.returned)
           = Normal [Examples.steps_of "Replace the filter."].
Proof.
  split; [by vm_compute|]. split; [by vm_compute|].
  eexists. split; [by vm_compute|]. by vm_compute.
Qed.

(** ** The upload *)

Section UploadFacts.
Import JsString VectorStore Server.
Context `{Tokenizer}.

Lemma take_imap {A B} (f : nat → A → B) (l : list A) (n : nat) :
  take n (imap f l) = imap f (take n l).
Proof.
  revert f n. induction l as [|x l IH]; intros f [|n]; simpl; try done.
  by rewrite IH.
Qed.

Lemma store_page_entries (pageNum : nat) (pageText : string) (s : t) :
  map entry_of (store_page pageNum pageText s).(chunks)
  = map entry_of s.(chunks) ++ map (λ chunk, (chunk, pageNum)) (pageChunks pageText)
  ∧ (store_page pageNum pageText s).(meta) = s.(meta).
Proof.
  unfold store_page. generalize (pageChunks pageText) as l. intros l.
  revert s. induction l as [|c l IH]; intros s; simpl.
  - by rewrite app_nil_r.
  - destruct (IH (addChunk c (embedding_of c) pageNum s)) as [-> ->].
    split; [|done]. simpl. rewrite map_app. simpl. by rewrite <- app_assoc.
Qed.

Lemma page_turn_entries (numPages i : nat) (pageText : string) (s : t) :
  map entry_of (page_turn numPages i pageText s).(chunks)
  = map entry_of s.(chunks) ++ page_entries i pageText.
Proof.
  unfold page_turn, page_entries.
  destruct (store_page_entries (S i) pageText s) as [Hc _].
  by destruct (S i =? numPages).
Qed.

(** The turns of the pages append the chunks of the pages, in order. *)
Lemma page_turns_entries (numPages : nat) (pages : list string) (s : t) :
  map entry_of
    (foldl (λ s turn, turn s) s (imap (page_turn numPages) pages)).(chunks)
  = map entry_of s.(chunks) ++ document_entries pages.
Proof.
  unfold document_entries.
  induction pages as [|pageText pages IH] using rev_ind.
  - simpl. by rewrite app_nil_r.
  - rewrite !imap_app, foldl_app, concat_app. simpl.
    rewrite page_turn_entries, IH, app_nil_r, Nat.add_0_r.
    by rewrite app_assoc.
Qed.

(** Before the turn of the last page, [totalChunks] is as [clear] left
    it. *)
Lemma page_turns_meta (numPages : nat) (pages : list string) (s : t) :
  length pages < numPages →
  (foldl (λ s turn, turn s) s (imap (page_turn numPages) pages)).(meta)
  = s.(meta).
Proof.
  induction pages as [|pageText pages IH] using rev_ind; intros Hlen; [done|].
  rewrite length_app in Hlen. simpl in Hlen.
  rewrite imap_app, foldl_app. simpl. unfold page_turn at 1.
  rewrite Nat.add_0_r.
  destruct (Nat.eqb_spec (S (length pages)) numPages); [lia|].
  destruct (store_page_entries (S (length pages)) pageText
              (foldl (λ s turn, turn s) s (imap (page_turn numPages) pages)))
    as [_ ->].
  apply IH. lia.
Qed.

Lemma during_upload_entries (f : file) (store0 : t) (k : nat) :
  map entry_of (during_upload f (S k) store0).(chunks)
  = document_entries (take (k - 1) f.(pages)).
Proof.
  unfold during_upload, upload_turns. cbn [take foldl].
  destruct k as [|k]; [done|]. cbn [take foldl].
  rewrite take_imap, page_turns_entries. simpl. rewrite Nat.sub_0_r.
  by destruct (length (pages f) =? 0).
Qed.

Lemma document_entries_prefix (pages : list string) (j : nat) :
  document_entries (take j pages) `prefix_of` document_entries pages.
Proof.
  unfold document_entries.
  rewrite <- (take_drop j pages) at 2. rewrite imap_app, concat_app.
  by eexists.
Qed.

Lemma upload_entries (f : file) (store0 : t) :
  map entry_of (upload f store0).(chunks) = document_entries f.(pages).
Proof.
  unfold upload. cbn [upload_turns length].
  rewrite during_upload_entries. simpl. rewrite Nat.sub_0_r, length_imap.
  by rewrite take_ge.
Qed.

Lemma elem_of_document_entries (pages : list string) (e : string * nat) :
  e ∈ document_entries pages
  ↔ ∃ i pageText fragment,
      pages !! i = Some pageText ∧ fragment ∈ fragments pageText
      ∧ useful fragment = true ∧ e = (trim fragment, S i).
Proof.
  unfold document_entries, page_entries, pageChunks.
  rewrite list_elem_of_In, in_concat. split.
  - intros (l & Hl & He). apply list_elem_of_In in Hl.
    apply elem_of_lookup_imap in Hl as (i & pageText & -> & Hi).
    apply in_map_iff in He as (chunk & <- & Hchunk).
    apply in_map_iff in Hchunk as (fragment & <- & Hfragment).
    apply List.filter_In in Hfragment as [Hfragment Huseful].
    exists i, pageText, fragment. by rewrite list_elem_of_In.
  - intros (i & pageText & fragment & Hi & Hfragment & Huseful & ->).
    eexists. split.
    + apply list_elem_of_In. by eapply elem_of_lookup_imap_2.
    + apply in_map_iff. eexists. split; [done|].
      apply in_map. apply List.filter_In. by rewrite <- list_elem_of_In.
Qed.

(** An upload that runs alone, no other upload writing the store between
    its turns: after its first turn the store holds the chunks of the
    pages read so far, which are the first of the chunks of the document,
    with [totalChunks] still 0 before the last page. *)
Lemma upload_alone_page_by_page `{RegExpHost} (f : file) (store0 : t)
    (k : nat) (query : string) :
  let store := during_upload f (S k) store0 in
  map entry_of store.(chunks) = document_entries (take (k - 1) f.(pages))
  ∧ map entry_of store.(chunks)
    `prefix_of` map entry_of (upload f store0).(chunks)
  ∧ (k ≤ length f.(pages) → 0 < length f.(pages) →
     store.(meta).(totalChunks) = 0)
  ∧ (String.eqb query "" = false →
     (search_handler query store = Status400 no_content
      ↔ store.(chunks) = [])).
Proof.
  intros store. subst store.
  split; [apply during_upload_entries|]. split; [|split].
  - rewrite during_upload_entries, upload_entries.
    apply document_entries_prefix.
  - intros Hk Hpages. unfold during_upload, upload_turns. cbn [take foldl].
    destruct k as [|k]; [done|]. cbn [take foldl].
    rewrite take_imap, page_turns_meta by (rewrite length_take; lia).
    destruct (Nat.eqb_spec (length (pages f)) 0); [lia | done].
  - intros Hquery. unfold search_handler. rewrite Hquery.
    destruct (chunks (during_upload f (S k) store0)) as [|c l] eqn:Hc.
    + done.
    + cbn [length Nat.eqb].
      destruct (search _ query default_topK) as [[|h hits]|e]; by split.
Qed.

End UploadFacts.


(** ** Uploads in progress together *)

Section Interleaving.
Import JsString VectorStore Server.
Context `{Tokenizer}.




(** The turns of one upload in a row are a schedule. *)
Lemma run_alone (f : file) (k j : nat) (s : t) :
  run [f] (replicate k 0) [j] s
  = foldl (λ s turn, turn s) s (take k (drop j (upload_turns f))).
Proof.
  revert j s. induction k as [|k IH]; intros j s; [done|].
  cbn [replicate run lookup list_lookup].
  destruct (upload_turns f !! j) as [turn|] eqn:Hturn.
  - rewrite (drop_S _ turn j Hturn). cbn [take foldl list_insert insert].
    apply IH.
  - rewrite drop_ge by by apply lookup_ge_None.
    rewrite take_nil. cbn [foldl].
    clear IH. induction k as [|k IHk]; [done|].
    cbn [replicate run lookup list_lookup]. by rewrite Hturn.
Qed.

Lemma during_upload_interleaved (f : file) (k : nat) (s : t) :
  during_upload f k s = interleaved [f] (replicate k 0) s.
Proof.
  unfold during_upload, interleaved.
  change (replicate (length [f]) 0) with [0]. by rewrite run_alone, drop_0.
Qed.


End Interleaving.

(** Two uploads in progress together: the earlier document is taken up
    first, the manual next, and the page of the earlier document arrives
    last.  A query then finds the chunk of the earlier document under the
    name and the number of pages of the manual, with [totalChunks] 1. *)
Lemma uploads_interleave :
  let store :=
    Server.interleaved (H:=Examples.one_token_per_byte)
      [Examples.earlier; Examples.manual] [0; 0; 1; 1; 0]
      VectorStore.initial in
  map VectorStore.text store.(VectorStore.chunks)
  = ["The previous document holds one sentence which is long enough."]
  ∧ store.(VectorStore.meta)
    = {| VectorStore.currentFileName := "manual.pdf";
         VectorStore.pageCount := 2;
         VectorStore.totalChunks := 1 |}.
Proof. by vm_compute. Qed.

(** ** The two paths and short chunks *)

Section ShortChunks.
Import JsString VectorStore Server.
Context `{Tokenizer} `{ExtractionService}.

(** C7, amended: when the index is built, a fragment of a page is stored,
    trimmed and with its page, if and only if its trimmed length exceeds
    50: the fragments of trimmed length at most 50 are dropped, and
    exactly those.  On the way to the summary nothing is dropped for its
    length: whatever the chunks are, when [processChunksInBatches] returns,
    the service was called for every one of them. *)
Theorem only_the_index_drops_short_fragments (f : file) (store0 : t)
    (chunks : list string) :
  (∀ i pageText fragment,
     f.(pages) !! i = Some pageText → fragment ∈ fragments pageText →
     ((trim fragment, S i) ∈ map entry_of (upload f store0).(VectorStore.chunks)
      ↔ 50 < String.length (trim fragment)))
  ∧ map entry_of (upload f store0).(VectorStore.chunks)
    = concat (imap (λ i pageText,
                      map (λ chunk, (chunk, S i))
                        (map trim
                           (List.filter
                              (λ fragment, 50 <? String.length (trim fragment))
                              (fragments pageText))))
                f.(pages))
  ∧ ∃ r, Batch.processChunksInBatches chunks = Some r
         ∧ (∀ results, r.(Batch.returned) = Normal results →
            ∀ i, i < length chunks → (i, 0) ∈ r.(Batch.requests)).
Proof.
  split; [|split].
  - intros i pageText fragment Hi Hfragment.
    rewrite upload_entries, elem_of_document_entries. split.
    + intros (i' & pageText' & fragment' & _ & _ & Huseful & [= Htrim _]).
      unfold useful in Huseful. apply Nat.ltb_lt in Huseful. by rewrite Htrim.
    + intros Hlong. exists i, pageText, fragment.
      repeat split; try done. by apply Nat.ltb_lt.
  - by rewrite upload_entries.
  - destruct (process_spec chunks) as (r & Hr & Hspec).
    exists r. split; [done|]. intros results Hresults.
    rewrite Hresults in Hspec. by destruct Hspec as (_ & _ & Hcalls).
Qed.

End ShortChunks.

(** C7, as the claim states it, fails: a fragment whose trimmed length is
    50, not below 50, is dropped as well. *)
Lemma fragment_of_fifty_is_dropped :
  String.length (JsString.trim Examples.fifty) = 50
  ∧ Server.fragments Examples.fifty = [Examples.fifty]
  ∧ (Server.upload (H:=Examples.one_token_per_byte)
       {| Server.originalname := "manual.pdf";
          Server.pages := [Examples.fifty] |}
       VectorStore.initial).(VectorStore.chunks) = [].
Proof. by vm_compute. Qed.

(** * Further properties of the code *)

(** ** Queries made of plain terms *)

Section PlainQueries.
Import JsString JsNumber JsArray VectorStore Server.
Context `{RegExpHost}.

Lemma score_chunk_plain (all : list chunk) (terms : list string) (c : chunk) :
  forallb RegExp.literal terms = true →
  ∃ item, score_chunk all terms c = Normal item.
Proof.
  intros Hlit. unfold score_chunk.
  destruct (frequency_loop terms (toLowerCase c.(text)) 0 Hlit) as (q & Hq & _).
  change (of_nat 0) with (Finite 0) at 1. rewrite Hq.
  cbn [mbind completion_bind].
  destruct (0 <? indexOf all c)%Z eqn:Hpos.
  - destruct (before_index_defined all c Hpos) as [prev ->].
    destruct (bonus_loop terms (toLowerCase prev.(text))
                (mul (Finite q)
                   (div (of_nat (length (List.filter
                           (includes (toLowerCase c.(text))) terms)))
                        (of_nat (length terms))))) as (y & -> & _).
    by eexists.
  - by eexists.
Qed.

(** X2: [search] throws only because of a term that is not a plain
    pattern.  Over every store, a query whose terms hold no syntax
    character of regular expressions makes [search] return, and the
    handler of [/search] does not answer it with status 500 before it asks
    the model. *)
Theorem search_returns_for_plain_terms (this : t) (query : string) (topK : nat) :
  forallb RegExp.literal (searchTerms query) = true →
  (∃ hits, search this query topK = Normal hits)
  ∧ ∀ error details, search_handler query this ≠ Status500 error details.
Proof.
  intros Hlit.
  assert (Hsearch : ∀ k, ∃ hits, search this query k = Normal hits).
  { intros k. unfold search, scoredChunks.
    destruct (mapM_Normal_Forall2
                (score_chunk this.(chunks) (searchTerms query)) this.(chunks))
      as (l & -> & _); [|by eexists].
    intros c _. by apply score_chunk_plain. }
  split; [apply Hsearch|]. intros error details. unfold search_handler.
  destruct (String.eqb query ""); [done|].
  destruct (length (chunks this) =? 0); [done|].
  destruct (Hsearch default_topK) as [hits ->]. by destruct hits.
Qed.

(** X3: a query that matches nothing is answered without the model.  When
    the store holds a chunk, the query is not empty, its terms are plain
    and none of them occurs in the lower-cased text of any chunk, the
    handler of [/search] answers that no relevant information was found. *)
Theorem unmatched_query_skips_the_model (this : t) (query : string) :
  this.(chunks) ≠ [] →
  String.eqb query "" = false →
  forallb RegExp.literal (searchTerms query) = true →
  (∀ term c, term ∈ searchTerms query → c ∈ this.(chunks) →
             includes (toLowerCase c.(text)) term = false) →
  search_handler query this = NoRelevantInformation.
Proof.
  intros Hchunks Hquery Hlit Hnone. unfold search_handler. rewrite Hquery.
  destruct (chunks this) as [|c l] eqn:Hc; [done|]. cbn [length Nat.eqb].
  rewrite search_nothing_found; [done | |].
  - intros term c' Hterm _. eexists. apply match_count_literal.
    rewrite forallb_forall in Hlit. apply Hlit. by apply list_elem_of_In.
  - intros term c' Hterm Hc'. apply Hnone; [done|]. by rewrite <- Hc.
Qed.

Lemma positive_same (x : number) (q : Q) :
  same x (Finite q) → (0 < q)%Q → positive x = true.
Proof.
  destruct x as [| |p]; simpl; try done. intros Hpq Hq.
  apply negb_true_iff. destruct (Qle_bool p 0) eqn:Hp; [|done].
  apply Qle_bool_iff in Hp. lra.
Qed.

(** X4: the half a chunk earns for a term of the chunk before it is
    enough to be returned.  Among chunks added to the initial store, a
    chunk that holds none of the plain terms of the query, stored just
    after a chunk that holds some, is a hit of [search] (asked for as many
    hits as there are chunks), with half the number of terms the chunk
    before holds as its score. *)
Theorem chunk_after_a_match_is_returned (emb : string → list number)
    (entries : list (string * nat)) (query : string) (i : nat)
    (e e' : string * nat) :
  forallb RegExp.literal (searchTerms query) = true →
  entries !! i = Some e →
  entries !! S i = Some e' →
  Score.present (searchTerms query) (toLowerCase e'.1) = [] →
  Score.present (searchTerms query) (toLowerCase e.1) ≠ [] →
  ∃ hits s,
    search (stored emb entries) query (length entries) = Normal hits
    ∧ {| h_text := e'.1; h_page := e'.2; h_score := s |} ∈ hits
    ∧ same s (mul (of_nat (length (Score.present (searchTerms query)
                                     (toLowerCase e.1)))) half).
Proof.
  intros Hlit He He' Hnone Hsome.
  unfold search, scoredChunks. rewrite stored_chunks.
  destruct (mapM_Normal_Forall2
              (score_chunk (imap (chunk_at emb) entries) (searchTerms query))
              (imap (chunk_at emb) entries)) as (l & Hl & Hall).
  { intros c _. by apply score_chunk_plain. }
  rewrite Hl. cbn [mbind completion_bind].
  destruct (score_chunk_formula emb entries _ (S i) e' Hlit He')
    as (item & Hitem & Htext & Hpage & Hscore).
  assert (Hc : imap (chunk_at emb) entries !! S i = Some (chunk_at emb (S i) e')).
  { by rewrite list_lookup_imap, He'. }
  destruct (Forall2_lookup_l _ _ _ _ _ Hall Hc) as (item' & Hi' & Hsc).
  rewrite Hitem in Hsc. injection Hsc as <-.
  set (k := length (Score.present (searchTerms query) (toLowerCase e.1))).
  assert (Hk : 0 < k).
  { unfold k. destruct (Score.present _ (toLowerCase e.1)); [done | simpl; lia]. }
  assert (Hterms : 0 < length (searchTerms query)).
  { destruct (searchTerms query); [done | simpl; lia]. }
  assert (Hhalf : same item.(s_score) (mul (of_nat k) half)).
  { eapply same_trans; [exact Hscore|].
    unfold Score.of_code, Score.closed_form.
    rewrite (nth_map_lookup (λ e : string * nat, toLowerCase e.1) entries (S i) e')
      by done.
    rewrite (nth_map_lookup (λ e : string * nat, toLowerCase e.1) entries i e)
      by done.
    rewrite Hnone. fold k. unfold of_nat, div. cbn [length].
    destruct (length (searchTerms query)) as [|n]; [lia|].
    change (Qzero (inject_Z (Z.of_nat (S n)))) with false. cbn iota.
    cbn [mul add half same]. change (inject_Z (Z.of_nat 0)) with 0%Q.
    unfold Qdiv. ring. }
  exists (ranked l (length entries)), item.(s_score).
  split; [done|]. split; [|exact Hhalf].
  assert (Hpos : positive item.(s_score) = true).
  { eapply positive_same; [exact Hhalf|]. unfold half, of_nat. simpl.
    apply Qmult_lt_0_compat; [|done].
    replace 0%Q with (inject_Z 0) by done. rewrite <- Zlt_Qlt. lia. }
  unfold ranked, slice. rewrite Nat.sub_0_r, drop_0.
  replace {| h_text := e'.1; h_page := e'.2; h_score := s_score item |}
    with (as_hit item) by (unfold as_hit; by rewrite Htext, Hpage).
  apply list_elem_of_In, in_map, list_elem_of_In.
  rewrite take_ge.
  - rewrite sort_Permutation. apply elem_of_List_filter. split; [|done].
    by eapply list_elem_of_lookup_2.
  - rewrite sort_Permutation.
    etransitivity; [apply List.filter_length_le|].
    apply Forall2_length in Hall. rewrite length_imap in Hall. lia.
Qed.

End PlainQueries.

Lemma search_hits_ranked_witness :
  let store :=
    VectorStore.stored no_embedding
      [("Close the cover.", 1); ("Replace the oil filter.", 1);
       ("Check the oil.", 2); ("Oil the hinge.", 2)] in
  ∃ hits,
    VectorStore.search (H:=strict_host) store "oil filter" 2 = Normal hits
    ∧ Forall (λ h, JsNumber.positive h.(VectorStore.h_score) = true) hits
    ∧ length hits ≤ 2
    ∧ StronglySorted
        (λ a b, JsNumber.geq a.(VectorStore.h_score) b.(VectorStore.h_score))
        hits
    ∧ ∃ l, VectorStore.scoredChunks (H:=strict_host) store "oil filter"
           = Normal l
           ∧ (∀ h, h ∈ hits → h ∈ map VectorStore.as_hit l)
           ∧ (∀ q, List.filter (VectorStore.score_is q) hits
                   `prefix_of` List.filter (VectorStore.score_is q)
                                 (map VectorStore.as_hit l)).
Proof.
  intros store. eexists. split; [by vm_compute|].
  apply (search_hits_ranked (H:=strict_host) store "oil filter" 2).
  by vm_compute.
Defined.

Lemma search_returns_for_plain_terms_witness :
  let store := VectorStore.stored no_embedding [("Check the oil level.", 1)] in
  forallb RegExp.literal (VectorStore.searchTerms "oil level") = true
  ∧ (∃ hits, VectorStore.search (H:=strict_host) store "oil level" 5
             = Normal hits)
  ∧ ∀ error details,
      Server.search_handler (H:=strict_host) "oil level" store
      ≠ Server.Status500 error details.
Proof.
  split; [done|].
  by apply (search_returns_for_plain_terms (H:=strict_host)).
Defined.

Lemma unmatched_query_skips_the_model_witness :
  let store := VectorStore.stored no_embedding [("Check the oil level.", 1)] in
  store.(VectorStore.chunks) ≠ []
  ∧ Server.search_handler (H:=strict_host) "spark plug" store
    = Server.NoRelevantInformation.
Proof.
  intros store. split; [done|].
  apply (unmatched_query_skips_the_model (H:=strict_host) store "spark plug");
    [done | done | done |].
  intros term c Hterm Hc.
  apply list_elem_of_In in Hterm. apply list_elem_of_In in Hc.
  destruct Hc as [<-|[]]. destruct Hterm as [<-|[<-|[]]]; reflexivity.
Defined.

Lemma chunk_after_a_match_is_returned_witness :
  let entries := [("Replace the oil filter.", 1); ("Close the cover.", 2)] in
  Score.present (VectorStore.searchTerms "oil filter") "close the cover." = []
  ∧ ∃ hits s,
      VectorStore.search (H:=strict_host)
        (VectorStore.stored no_embedding entries) "oil filter" 2 = Normal hits
      ∧ {| VectorStore.h_text := "Close the cover.";
           VectorStore.h_page := 2;
           VectorStore.h_score := s |} ∈ hits
      ∧ JsNumber.same s (JsNumber.mul (JsNumber.of_nat 2) JsNumber.half).
Proof.
  intros entries. split; [done|].
  by apply (chunk_after_a_match_is_returned (H:=strict_host) no_embedding
              entries "oil filter" 0
              ("Replace the oil filter.", 1) ("Close the cover.", 2)).
Defined.

(** ** Calls and pace of the batch orchestrator *)

Section BatchBudget.
Import Json Batch.
Context `{ExtractionService}.

(** The calls of one promise: the retries in order, from the retry the
    loop is entered with, no more than [MAX_RETRIES] in all; and every
    call is preceded by the delay of the rate limit. *)
Lemma attempts_log (fuel position : nat) (chunk : string) (retries : nat)
    (now : N) (log : list (nat * nat)) (k : task) :
  attempts fuel position chunk retries now log = Some k →
  ∃ m, k.(calls) = log ++ map (pair position) (seq retries m)
       ∧ (retries < MAX_RETRIES → 0 < m ∧ retries + m ≤ MAX_RETRIES)
       ∧ (now ≤ k.(settles_at))%N
       ∧ (0 < m → (now + RATE_LIMIT_DELAY ≤ k.(settles_at))%N).
Proof.
  revert retries now log k.
  induction fuel as [|fuel IH]; intros retries now log k; cbn [attempts].
  - destruct (Nat.ltb_spec retries MAX_RETRIES); [done|].
    intros [= <-]. exists 0. cbn [calls settles_at map seq].
    rewrite app_nil_r. repeat split; lia.
  - destruct (Nat.ltb_spec retries MAX_RETRIES) as [Hlt|Hge].
    2: { intros [= <-]. exists 0. cbn [calls settles_at map seq].
         rewrite app_nil_r. repeat split; lia. }
    assert (Hone : ∀ now', (now + RATE_LIMIT_DELAY ≤ now')%N →
              ∃ m, log ++ [(position, retries)]
                   = log ++ map (pair position) (seq retries m)
                   ∧ (retries < MAX_RETRIES → 0 < m ∧ retries + m ≤ MAX_RETRIES)
                   ∧ (now ≤ now')%N
                   ∧ (0 < m → (now + RATE_LIMIT_DELAY ≤ now')%N)).
    { intros now' Hnow. exists 1. repeat split; lia. }
    assert (Hmore : ∀ now' k,
              (now + RATE_LIMIT_DELAY ≤ now')%N →
              S retries ≠ MAX_RETRIES →
              attempts fuel position chunk (S retries) now'
                (log ++ [(position, retries)]) = Some k →
              ∃ m, k.(calls) = log ++ map (pair position) (seq retries m)
                   ∧ (retries < MAX_RETRIES → 0 < m ∧ retries + m ≤ MAX_RETRIES)
                   ∧ (now ≤ k.(settles_at))%N
                   ∧ (0 < m → (now + RATE_LIMIT_DELAY ≤ k.(settles_at))%N)).
    { intros now' k' Hnow Hlast Hk'.
      apply IH in Hk' as (m & Hcalls & Hm & Hle & _).
      exists (S m). cbn [seq map]. rewrite Hcalls, <- app_assoc.
      repeat split; lia. }
    destruct (reply_of _).
    + destruct (Nat.eq_dec (S retries) MAX_RETRIES) as [Hlast|Hlast].
      * intros Hk. destruct fuel as [|fuel']; cbn [attempts] in Hk;
          rewrite Hlast, Nat.ltb_irrefl in Hk; injection Hk as <-;
          cbn [calls settles_at]; apply Hone; lia.
      * apply Hmore; [lia | done].
    + destruct (Nat.eqb_spec (S retries) MAX_RETRIES) as [Hlast|Hlast].
      * intros [= <-]. cbn [calls settles_at]. apply Hone. lia.
      * apply Hmore; [lia | done].
    + intros [= <-]. cbn [calls settles_at]. apply Hone. lia.
Qed.

Lemma batch_paced (start : nat) (now : N) (batch : list string) (off : nat)
    (tasks : list task) :
  mapM (λ '(index, chunk), process_chunk (start + index) chunk now)
       (imap (λ i c, (off + i, c)) batch) = Some tasks →
  Forall2 (paced now) tasks (seq (start + off) (length batch)).
Proof.
  revert off tasks. induction batch as [|c batch IH]; intros off tasks.
  - intros [= <-]. constructor.
  - cbn [imap mapM].
    destruct (process_chunk (start + (off + 0)) c now) as [k|] eqn:Hk; [|done].
    cbn [mbind option_bind].
    rewrite (imap_ext _ (λ i c, (S off + i, c)) batch)
      by (intros; simpl; f_equal; lia).
    destruct (mapM _ _) as [rest|] eqn:Hrest; [|done].
    cbn [mbind option_bind mret option_ret]. intros [= <-].
    cbn [length seq]. constructor.
    + apply attempts_log in Hk as (m & Hcalls & Hm & _ & Hlate).
      exists m. replace (start + off) with (start + (off + 0)) by lia.
      split; [done|]. unfold MAX_RETRIES in *. split; [lia|]. apply Hlate. lia.
    + replace (S (start + off)) with (start + S off) by lia. by apply IH.
Qed.

Lemma paced_calls (now : N) (tasks : list task) (first count : nat) :
  Forall2 (paced now) tasks (seq first count) →
  NoDup (concat (map calls tasks))
  ∧ ∀ i a, (i, a) ∈ concat (map calls tasks) →
           first ≤ i < first + count ∧ a < MAX_RETRIES.
Proof.
  revert first tasks. induction count as [|count IH]; intros first tasks.
  - intros ->%Forall2_nil_inv_r. split; [constructor | set_solver].
  - cbn [seq]. intros (k & rest & Hk & Hrest & ->)%Forall2_cons_inv_r.
    destruct (IH _ _ Hrest) as [IHdup IHrange].
    destruct Hk as (m & Hcalls & Hm & _). cbn [map concat]. rewrite Hcalls.
    assert (Hown : ∀ i a, (i, a) ∈ map (pair first) (seq 0 m) →
                          i = first ∧ a < m).
    { intros i a [x [[= <- <-] Hx%in_seq]]%list_elem_of_In%in_map_iff. lia. }
    split.
    + apply NoDup_app. split; [|split; [|done]].
      * apply (NoDup_fmap_2 (pair first)), NoDup_seq.
      * intros [i a] Hi%Hown Hrest'%IHrange. lia.
    + intros i a [Hi%Hown|Hi%IHrange]%elem_of_app; lia.
Qed.

Lemma latest_settles (now bound : N) (tasks : list task) :
  tasks ≠ [] →
  Forall (λ k, (bound ≤ k.(settles_at))%N) tasks →
  (bound ≤ foldr (λ k, N.max k.(settles_at)) now tasks)%N.
Proof.
  destruct tasks as [|k tasks]; [done|]. intros _ Hall.
  apply Forall_cons in Hall as [Hk _]. simpl. lia.
Qed.

(** The loop over the batches, from the batch [b] on: no call is logged
    twice, every call is for a chunk of the list and one of its
    [MAX_RETRIES] retries, and a batch starts 15 seconds after the one
    before it. *)
Lemma batches_budget (chunks : list string) (n b : nat) (now : N)
    (processed : list value) (log : list (nat * nat)) :
  b + n = totalBatches chunks →
  NoDup log →
  (∀ i a, (i, a) ∈ log →
          i < b * BATCH_SIZE ∧ i < length chunks ∧ a < MAX_RETRIES) →
  (N.of_nat b * (RATE_LIMIT_DELAY + RATE_LIMIT_DELAY * 2)
   ≤ now + (if (b <? totalBatches chunks)%nat then 0
            else RATE_LIMIT_DELAY * 2))%N →
  ∃ r, batches chunks (seq b n) now processed log = Some r
       ∧ NoDup r.(requests)
       ∧ (∀ i a, (i, a) ∈ r.(requests) →
                 i < length chunks ∧ a < MAX_RETRIES)
       ∧ (∀ results, r.(returned) = Normal results →
            (N.of_nat (totalBatches chunks)
             * (RATE_LIMIT_DELAY + RATE_LIMIT_DELAY * 2)
             ≤ r.(ended_at) + RATE_LIMIT_DELAY * 2)%N).
Proof.
  revert b now processed log.
  induction n as [|n IH]; intros b now processed log Hb Hdup Hrange Hnow.
  - cbn [seq batches]. eexists. split; [done|].
    cbn [returned requests ended_at]. split; [done|].
    split; [intros i a Hi; apply Hrange in Hi; lia|].
    intros _ _. rewrite Nat.add_0_r in Hb. subst b.
    rewrite Nat.ltb_irrefl in Hnow. lia.
  - cbn [seq batches]. rewrite batch_slice.
    set (batch := take BATCH_SIZE (drop (b * BATCH_SIZE) chunks)).
    destruct (batch_promises (b * BATCH_SIZE) now batch 0)
      as (tasks & Htasks & _ & _).
    pose proof (batch_paced (b * BATCH_SIZE) now batch 0 tasks Htasks) as Hpaced.
    rewrite (imap_ext pair (λ i c, (0 + i, c)) batch) by done.
    rewrite Htasks. cbn [mbind option_bind].
    pose proof (batch_in_range chunks b ltac:(lia)) as Hin.
    assert (Hlen : length batch ≤ BATCH_SIZE
                   ∧ b * BATCH_SIZE + length batch ≤ length chunks
                   ∧ 0 < length batch).
    { unfold batch. rewrite length_take, length_drop.
      unfold BATCH_SIZE in *. lia. }
    destruct (paced_calls now tasks _ _ Hpaced) as [Hnew Hnewrange].
    assert (Hdup' : NoDup (log ++ concat (map calls tasks))).
    { apply NoDup_app. split; [done|]. split; [|done].
      intros [i a] Hi%Hrange Hi'%Hnewrange. unfold BATCH_SIZE in *. lia. }
    assert (Hrange' : ∀ i a, (i, a) ∈ log ++ concat (map calls tasks) →
              i < S b * BATCH_SIZE ∧ i < length chunks ∧ a < MAX_RETRIES).
    { intros i a [Hi%Hrange|Hi%Hnewrange]%elem_of_app;
        unfold BATCH_SIZE in *; lia. }
    unfold Promise_all.
    destruct (first_rejection tasks) as [[t e]|] eqn:Hrej.
    + eexists. split; [done|]. cbn [returned requests ended_at].
      split; [done|]. split; [|done].
      intros i a Hi%Hrange'. lia.
    + apply IH; [lia | done | done |].
      assert (Hlate : (now + RATE_LIMIT_DELAY
                       ≤ foldr (λ k, N.max k.(settles_at)) now tasks)%N).
      { apply latest_settles.
        - apply Forall2_length in Hpaced. rewrite length_seq in Hpaced.
          destruct tasks; [simpl in Hpaced; lia | done].
        - apply Forall_forall. intros k Hk.
          apply list_elem_of_lookup in Hk as [j Hj].
          destruct (Forall2_lookup_l _ _ _ _ _ Hpaced Hj) as (p & _ & m & _ & _ & Hk).
          done. }
      destruct (Nat.ltb_spec b (totalBatches chunks)); [|lia].
      unfold RATE_LIMIT_DELAY in *.
      destruct (Nat.ltb_spec b (totalBatches chunks - 1));
        destruct (Nat.ltb_spec (S b) (totalBatches chunks)); lia.
Qed.

End BatchBudget.

(** X5: the calls [processChunksInBatches] makes.  Every call is for a
    chunk of the list and is one of its [MAX_RETRIES] retries, none is made
    twice, and so a list of n chunks costs no more than [MAX_RETRIES] times
    n calls of the service, whatever the service answers. *)
Theorem calls_stay_within_the_retries `{ExtractionService}
    (chunks : list string) :
  ∃ r, Batch.processChunksInBatches chunks = Some r
       ∧ NoDup r.(Batch.requests)
       ∧ (∀ i a, (i, a) ∈ r.(Batch.requests) →
                 i < length chunks ∧ a < MAX_RETRIES)
       ∧ length r.(Batch.requests) ≤ MAX_RETRIES * length chunks.
Proof.
  destruct (batches_budget chunks (Batch.totalBatches chunks) 0 0 [] [])
    as (r & Hr & Hdup & Hrange & _); [done | constructor | set_solver | |].
  { destruct (_ <? _); simpl; lia. }
  exists r. split; [done|]. split; [done|]. split; [done|].
  assert (Hsub : r.(Batch.requests)
                 ⊆+ list_prod (seq 0 (length chunks)) (seq 0 MAX_RETRIES)).
  { apply NoDup_submseteq; [done|]. intros [i a] Hi%Hrange.
    apply list_elem_of_In, in_prod_iff. rewrite !in_seq. lia. }
  apply submseteq_length in Hsub.
  rewrite length_prod, !length_seq in Hsub. lia.
Qed.

(** X6: the pace of [processChunksInBatches].  A call that returns has
    spent, for each of its batches, at least the delay of the rate limit
    before the calls and, save after the last, twice that delay as a
    pause: 15 seconds a batch less the last pause. *)
Theorem batches_are_paced `{ExtractionService} (chunks : list string) :
  ∃ r, Batch.processChunksInBatches chunks = Some r
       ∧ ∀ results, r.(Batch.returned) = Normal results →
           (N.of_nat (Batch.totalBatches chunks)
            * (RATE_LIMIT_DELAY + RATE_LIMIT_DELAY * 2)
            ≤ r.(Batch.ended_at) + RATE_LIMIT_DELAY * 2)%N.
Proof.
  destruct (batches_budget chunks (Batch.totalBatches chunks) 0 0 [] [])
    as (r & Hr & _ & _ & Hpace); [done | constructor | set_solver | |].
  { destruct (_ <? _); simpl; lia. }
  by exists r.
Qed.

(** ** How the promise of a chunk settles *)

Section Verdicts.
Import Json Batch.
Context `{ExtractionService}.

(** The promise of a chunk is fulfilled with the data of the first call
    that extracts, among [MAX_RETRIES] calls; it is fulfilled with
    [undefined] when none extracts and the last is limited, and rejected
    when none extracts and the last fails. *)
Lemma verdict_cases (position : nat) (chunk : string) :
  match verdict position chunk with
  | Normal (Some data) =>
      ∃ a, a < MAX_RETRIES
           ∧ reply_of (respond position chunk a) = Extracted data
           ∧ ∀ a' data', a' < a →
               reply_of (respond position chunk a') ≠ Extracted data'
  | Normal None =>
      reply_of (respond position chunk (MAX_RETRIES - 1)) = RateLimited
      ∧ ∀ a data, a < MAX_RETRIES →
          reply_of (respond position chunk a) ≠ Extracted data
  | Throw e =>
      ∃ error,
        reply_of (respond position chunk (MAX_RETRIES - 1)) = Failed error
        ∧ e = exhausted error
        ∧ ∀ a data, a < MAX_RETRIES →
            reply_of (respond position chunk a) ≠ Extracted data
  end.
Proof.
  unfold verdict, process_chunk, MAX_RETRIES. simpl.
  destruct (reply_of (respond position chunk 0)) eqn:H0; simpl;
    [| |exists 0; split; [lia|]; split; [done|]; intros; lia];
    (destruct (reply_of (respond position chunk 1)) eqn:H1; simpl;
     [| |exists 1; split; [lia|]; split; [done|];
         intros [|a'] data' Ha'; [by rewrite H0 | lia]]);
    (destruct (reply_of (respond position chunk 2)) eqn:H2; simpl;
     [split; [done|] | eexists; split; [done|]; split; [done|]
      | exists 2; split; [lia|]; split; [done|]]);
    intros [|[|[|a]]] ? ?; first [lia | by rewrite ?H0, ?H1, ?H2].
Qed.

Lemma verdict_first_extracted (position : nat) (chunk : string) (a : nat)
    (data : value) :
  a < MAX_RETRIES →
  reply_of (respond position chunk a) = Extracted data →
  (∀ a' data', a' < a →
     reply_of (respond position chunk a') ≠ Extracted data') →
  verdict position chunk = Normal (Some data).
Proof.
  intros Ha Hdata Hfirst. pose proof (verdict_cases position chunk) as Hcases.
  destruct (verdict position chunk) as [[data'|]|e].
  - destruct Hcases as (b & Hb & Hdata' & Hfirst').
    destruct (Nat.lt_trichotomy a b) as [Hlt|[->|Hgt]].
    + by destruct (Hfirst' a data Hlt).
    + rewrite Hdata in Hdata'. by injection Hdata' as ->.
    + by destruct (Hfirst b data' Hgt).
  - destruct Hcases as [_ Hnone]. by destruct (Hnone a data Ha).
  - destruct Hcases as (error & _ & _ & Hnone). by destruct (Hnone a data Ha).
Qed.

Lemma verdict_gives_up (position : nat) (chunk : string) (error : exn) :
  (∀ a data, a < MAX_RETRIES →
     reply_of (respond position chunk a) ≠ Extracted data) →
  reply_of (respond position chunk (MAX_RETRIES - 1)) = Failed error →
  verdict position chunk = Throw (exhausted error).
Proof.
  intros Hnone Hlast. pose proof (verdict_cases position chunk) as Hcases.
  destruct (verdict position chunk) as [[data'|]|e].
  - destruct Hcases as (b & Hb & Hdata' & _). by destruct (Hnone b data' Hb).
  - destruct Hcases as [Hlimited _]. by rewrite Hlast in Hlimited.
  - destruct Hcases as (error' & Hlast' & -> & _).
    rewrite Hlast in Hlast'. by injection Hlast' as ->.
Qed.

End Verdicts.

(** X7: when [processChunksInBatches] fails.  The call fails exactly when
    for some chunk none of the [MAX_RETRIES] calls extracts and the last
    one fails; the results of the other chunks are then not returned, and
    the error names the number of attempts and carries the message of the
    last failure of such a chunk. *)
Theorem one_exhausted_chunk_fails_the_call `{ExtractionService}
    (chunks : list string) :
  ∃ r, Batch.processChunksInBatches chunks = Some r
       ∧ ((∃ e, r.(Batch.returned) = Throw e)
          ↔ ∃ i c error,
              chunks !! i = Some c
              ∧ (∀ a data, a < MAX_RETRIES →
                   reply_of (respond i c a) ≠ Extracted data)
              ∧ reply_of (respond i c (MAX_RETRIES - 1)) = Failed error)
       ∧ ∀ e, r.(Batch.returned) = Throw e →
           ∃ i c error,
             chunks !! i = Some c
             ∧ reply_of (respond i c (MAX_RETRIES - 1)) = Failed error
             ∧ e = Error ("Failed to process chunk after 3 attempts: "
                          +:+ message_of error).
Proof.
  destruct (process_spec chunks) as (r & Hr & Hspec).
  exists r. split; [done|].
  destruct (Batch.returned r) as [results|e].
  - destruct Hspec as (_ & Hfulfilled & _). split; [|done]. split.
    + by intros [e He].
    + intros (i & c & error & Hc & Hnone & Hlast). exfalso.
      destruct (Hfulfilled i c Hc) as [v Hv].
      by rewrite (verdict_gives_up i c error Hnone Hlast) in Hv.
  - destruct Hspec as (i & c & Hc & Hv).
    pose proof (verdict_cases i c) as Hcases. rewrite Hv in Hcases.
    destruct Hcases as (error & Hlast & -> & Hnone). split.
    + split; [|by eexists]. intros _. by exists i, c, error.
    + intros e' [= <-]. by exists i, c, error.
Qed.

(** X8: what [processChunksInBatches] returns.  A call that returns gives
    no more results than chunks, and every result is a truthy value that
    the service extracted for a chunk of the list in one of its
    [MAX_RETRIES] calls. *)
Theorem results_are_extracted_data `{ExtractionService}
    (chunks : list string) :
  ∃ r, Batch.processChunksInBatches chunks = Some r
       ∧ ∀ results, r.(Batch.returned) = Normal results →
           length results ≤ length chunks
           ∧ ∀ data, data ∈ results →
               Json.truthy data = true
               ∧ ∃ i c a, chunks !! i = Some c ∧ a < MAX_RETRIES
                          ∧ reply_of (respond i c a) = Extracted data.
Proof.
  destruct (process_spec chunks) as (r & Hr & Hspec).
  exists r. split; [done|]. intros results Hresults.
  rewrite Hresults in Hspec. destruct Hspec as (-> & _ & _). split.
  - rewrite <- (length_imap Batch.verdict chunks).
    generalize (imap Batch.verdict chunks). intros l.
    induction l as [|v l IH]; [done|]. cbn [omap list_omap].
    destruct (Batch.delivered v); simpl; lia.
  - intros data (v & Hv & Hdata)%list_elem_of_omap.
    apply list_elem_of_lookup in Hv as [i Hv].
    rewrite list_lookup_imap in Hv.
    destruct (chunks !! i) as [c|] eqn:Hc; [|done]. injection Hv as <-.
    pose proof (verdict_cases i c) as Hcases.
    destruct (Batch.verdict i c) as [[data'|]|e]; try done.
    cbn [Batch.delivered] in Hdata.
    destruct (Json.truthy data') eqn:Htruthy; [|done]. injection Hdata as <-.
    split; [done|]. destruct Hcases as (a & Ha & Hreply & _).
    by exists i, c, a.
Qed.

(** X9: retries that succeed leave no gap.  When for every chunk one of
    the [MAX_RETRIES] calls extracts a truthy value, whatever the calls
    before it answered, [processChunksInBatches] returns one result for
    each chunk, in the order of the chunks: the value of the first call
    that extracted. *)
Theorem retried_chunks_keep_their_place `{ExtractionService}
    (chunks : list string) :
  (∀ i c, chunks !! i = Some c →
     ∃ a data, a < MAX_RETRIES
               ∧ reply_of (respond i c a) = Extracted data
               ∧ Json.truthy data = true
               ∧ ∀ a' data', a' < a →
                   reply_of (respond i c a') ≠ Extracted data') →
  ∃ r results,
    Batch.processChunksInBatches chunks = Some r
    ∧ r.(Batch.returned) = Normal results
    ∧ length results = length chunks
    ∧ ∀ i c a data,
        chunks !! i = Some c →
        a < MAX_RETRIES →
        reply_of (respond i c a) = Extracted data →
        (∀ a' data', a' < a → reply_of (respond i c a') ≠ Extracted data') →
        Json.truthy data = true →
        results !! i = Some data.
Proof.
  intros Hall.
  destruct (process_aligned chunks) as (r & results & Hr & Hret & Hlen & Hat).
  - intros i c Hc.
    destruct (Hall i c Hc) as (a & data & Ha & Hdata & Htruthy & Hfirst).
    rewrite (verdict_first_extracted i c a data Ha Hdata Hfirst).
    cbn [Batch.delivered]. by rewrite Htruthy.
  - exists r, results. repeat split; try done.
    intros i c a data Hc Ha Hdata Hfirst Htruthy.
    rewrite (Hat i c Hc), (verdict_first_extracted i c a data Ha Hdata Hfirst).
    cbn [Batch.delivered]. by rewrite Htruthy.
Qed.

Lemma retried_chunks_keep_their_place_witness :
  let chunks := ["Remove the cover."; "Replace the filter."; "Close it."] in
  ∃ r results,
    Batch.processChunksInBatches (H:=Examples.recovers) chunks = Some r
    ∧ r.(Batch.returned) = Normal results
    ∧ length results = length chunks
    ∧ ∀ i c a data,
        chunks !! i = Some c →
        a < MAX_RETRIES →
        reply_of (respond (ExtractionService:=Examples.recovers) i c a)
        = Extracted data →
        (∀ a' data', a' < a →
           reply_of (respond (ExtractionService:=Examples.recovers) i c a')
           ≠ Extracted data') →
        Json.truthy data = true →
        results !! i = Some data.
Proof.
  intros chunks.
  apply (retried_chunks_keep_their_place (H:=Examples.recovers) chunks).
  intros i c _. exists 2, (Examples.steps_of c).
  split; [unfold MAX_RETRIES; lia|]. split; [reflexivity|].
  split; [reflexivity|].
  intros [|[|a']] data' Ha'; [discriminate | discriminate | lia].
Defined.

(** ** Merging in stages *)

Section MergeStages.
Import Json Merge.

Lemma first_seen_app (a b : list string) :
  first_seen (a ++ b)
  = first_seen a
    ++ List.filter (λ y, negb (bool_decide (y ∈ a))) (first_seen b).
Proof.
  rewrite <- !Set_of_first_seen. unfold Set_of.
  rewrite foldl_app, foldl_Set_add. fold (Set_of a).
  rewrite !Set_of_first_seen. f_equal. apply List.filter_ext. intros y.
  f_equal. apply bool_decide_ext, first_seen_elem.
Qed.

Lemma first_seen_concat (groups : list (list string)) :
  first_seen (concat (map first_seen groups)) = first_seen (concat groups).
Proof.
  induction groups as [|l groups IH]; [done|]. cbn [map concat].
  rewrite !first_seen_app, first_seen_idempotent, IH. f_equal.
  apply List.filter_ext. intros y. f_equal.
  apply bool_decide_ext, first_seen_elem.
Qed.

Lemma collected_concat (name : string)
    (groups : list (list (gmap string property))) :
  collected name (concat groups) = concat (map (collected name) groups).
Proof.
  unfold collected. induction groups as [|g groups IH]; [done|].
  cbn [concat map]. by rewrite map_app, concat_app, IH.
Qed.

(** X10: merging in stages.  The chunks of a document may be merged group
    by group and the documents of the groups, given as extraction results
    with the prerequisites as key points, merged again: the outcome is the
    document [mergeProcessedChunks] gives for all the chunks at once. *)
Theorem merge_in_stages (groups : list (list (gmap string property))) :
  mergeProcessedChunks
    (map (λ group, to_object (as_result (mergeProcessedChunks group))) groups)
  = mergeProcessedChunks (concat groups).
Proof.
  rewrite !merge_fields, !collected_concat.
  assert (Hstage : ∀ (name : string) (field : merged → list string),
            (∀ m, spread (to_object (as_result m) !! name) = field m) →
            (∀ group, field (mergeProcessedChunks group)
                      = first_seen (collected name group)) →
            first_seen
              (collected name
                 (map (λ group,
                         to_object (as_result (mergeProcessedChunks group)))
                      groups))
            = first_seen (concat (map (collected name) groups))).
  { intros name field Hspread Hfield.
    rewrite <- first_seen_concat. f_equal. unfold collected at 1.
    rewrite !map_map. f_equal. apply map_ext. intros group.
    by rewrite Hspread, Hfield. }
  f_equal.
  - apply (Hstage "key_points" prerequisites).
    + intros m. by destruct (to_object_lookup (as_result m)) as (-> & _ & _).
    + intros group. by rewrite merge_fields.
  - apply (Hstage "warnings" warnings).
    + intros m. by destruct (to_object_lookup (as_result m)) as (_ & -> & _).
    + intros group. by rewrite merge_fields.
  - apply (Hstage "steps" steps).
    + intros m. by destruct (to_object_lookup (as_result m)) as (_ & _ & ->).
    + intros group. by rewrite merge_fields.
Qed.

End MergeStages.

(** ** The summary of a document *)

Section Summary.
Import JsString Json Batch Merge Server.
Context `{TextSplitter} `{ExtractionService}.





End Summary.

(** ** The store an upload leaves *)

Section UploadedStore.
Import JsString VectorStore Server.
Context `{Tokenizer}.









Lemma trimEnd_cons (c : ascii) (r : string) :
  trimEnd (String c r)
  = match trimEnd r with
    | EmptyString => if is_space c then EmptyString else String c EmptyString
    | r' => String c r'
    end.
Proof. done. Qed.

Lemma trimEnd_idempotent (s : string) : trimEnd (trimEnd s) = trimEnd s.
Proof.
  induction s as [|c r IH]; [done|]. rewrite trimEnd_cons.
  destruct (trimEnd r) as [|c' r'] eqn:Hr.
  - destruct (is_space c) eqn:Hc; [done|]. rewrite trimEnd_cons.
    cbn [trimEnd]. by rewrite Hc.
  - by rewrite trimEnd_cons, IH.
Qed.

Lemma trimStart_head (s : string) :
  match trimStart s with
  | EmptyString => True
  | String c _ => is_space c = false
  end.
Proof.
  induction s as [|c r IH]; [done|]. cbn [trimStart].
  by destruct (is_space c) eqn:Hc.
Qed.

Lemma trimStart_trimEnd (s : string) :
  match s with
  | EmptyString => True
  | String c _ => is_space c = false
  end →
  trimStart (trimEnd s) = trimEnd s.
Proof.
  destruct s as [|c r]; [done|]. intros Hc. rewrite trimEnd_cons.
  destruct (trimEnd r); [rewrite Hc|]; cbn [trimStart]; by rewrite Hc.
Qed.

Lemma trim_idempotent (s : string) : trim (trim s) = trim s.
Proof.
  unfold trim. rewrite (trimStart_trimEnd (trimStart s)) by apply trimStart_head.
  apply trimEnd_idempotent.
Qed.

Lemma document_pages_ascend (pages : list string) (off : nat) :
  StronglySorted le
    (map snd (concat (imap (λ i, page_entries (off + i)) pages))).
Proof.
  revert off. induction pages as [|p pages IH]; intros off; [constructor|].
  cbn [imap concat]. rewrite map_app.
  rewrite (imap_ext _ (λ i, page_entries (S off + i)) pages)
    by (intros; simpl; f_equal; lia).
  assert (Hrest : Forall (le (S (off + 0)))
            (map snd (concat (imap (λ i, page_entries (S off + i)) pages)))).
  { apply Forall_forall. intros n Hn.
    apply list_elem_of_In, in_map_iff in Hn as ([x m] & <- & Hn).
    apply in_concat in Hn as (l & Hl & Hn).
    apply list_elem_of_In, elem_of_lookup_imap in Hl as (i & q & -> & _).
    apply in_map_iff in Hn as (chunk & [= _ <-] & _). simpl. lia. }
  unfold page_entries at 1. rewrite map_map. cbn [snd].
  induction (pageChunks p) as [|chunk l IHl]; [apply IH|].
  cbn [map app]. constructor; [done|].
  apply Forall_app. split; [|done].
  apply Forall_forall. by intros n (x & <- & _)%list_elem_of_In%in_map_iff.
Qed.

(** X13: the chunks a completed upload stores.  Every chunk is longer
    than 50 characters and has no white space at its ends; its page is one
    of the pages of the document, counted from 1; and the chunks are
    stored in the order of their pages. *)
Theorem stored_chunks_are_long_and_paged (f : file) (store0 : t) :
  let store := upload f store0 in
  (∀ c, c ∈ store.(chunks) →
        50 < String.length c.(text)
        ∧ trim c.(text) = c.(text)
        ∧ 1 ≤ c.(page) ≤ length f.(pages))
  ∧ StronglySorted le (map page store.(chunks)).
Proof.
  intros store. pose proof (upload_entries f store0) as Hentries.
  fold store in Hentries. split.
  - intros c Hc.
    assert (He : entry_of c ∈ document_entries f.(pages)).
    { rewrite <- Hentries. by apply list_elem_of_In, in_map, list_elem_of_In. }
    apply elem_of_document_entries in He
      as (i & pageText & fragment & Hi & _ & Huseful & [= Htext Hpage]).
    rewrite Htext, Hpage. split; [|split].
    + unfold useful in Huseful. by apply Nat.ltb_lt in Huseful.
    + apply trim_idempotent.
    + apply lookup_lt_Some in Hi. lia.
  - replace (map page store.(chunks)) with (map snd (map entry_of store.(chunks)))
      by (rewrite map_map; done).
    rewrite Hentries. apply (document_pages_ascend f.(pages) 0).
Qed.

End UploadedStore.

(** ** The fragments of a page *)

Section Fragments.
Import JsString Server.

Lemma split_from_cons (cur : list ascii) (punct skipping : bool) (s : string) :
  ∃ first rest, split_from cur punct skipping s = first :: rest.
Proof.
  revert cur punct skipping.
  induction s as [|c r IH]; intros cur punct skipping; cbn [split_from].
  - by eexists _, _.
  - destruct (skipping && is_space c); [apply IH|].
    destruct (punct && is_space c && starts_upper (trimStart r));
      [by eexists _, _ | apply IH].
Qed.

Lemma string_of_snoc (l : list ascii) (c : ascii) (r : string) :
  string_of_list_ascii (l ++ [c]) +:+ r = string_of_list_ascii l +:+ String c r.
Proof.
  induction l as [|x l IH]; [done|].
  change (String x (string_of_list_ascii (l ++ [c]) +:+ r)
          = String x (string_of_list_ascii l +:+ String c r)).
  by f_equal.
Qed.

Lemma append_empty (s : string) : s +:+ "" = s.
Proof.
  induction s as [|c s IH]; [done|].
  change (String c (s +:+ "") = String c s). by f_equal.
Qed.

Lemma collapse_single_spaced (s : string) :
  single_spaced (collapse_whitespace s) = true.
Proof.
  induction s as [|c r IH]; [done|]. cbn [collapse_whitespace].
  destruct (is_space c) eqn:Hc.
  - destruct r as [|c' r']; [done|].
    destruct (is_space c') eqn:Hc'; [done|].
    cbn [single_spaced]. rewrite IH, andb_true_r.
    cbn [collapse_whitespace]. rewrite Hc'. cbn [starts_space].
    by rewrite Hc', orb_true_r.
  - cbn [single_spaced]. by rewrite Hc, IH.
Qed.

Lemma split_from_joined (cur : list ascii) (punct skipping : bool) (s : string) :
  single_spaced s = true →
  (skipping = true → starts_space s = false) →
  String.concat " " (split_from cur punct skipping s)
  = string_of_list_ascii (rev cur) +:+ s.
Proof.
  revert cur punct skipping.
  induction s as [|c r IH]; intros cur punct skipping Hs Hskip;
    cbn [split_from].
  - simpl. by rewrite append_empty.
  - cbn [single_spaced] in Hs. apply andb_true_iff in Hs as [Hc Hr].
    destruct (skipping && is_space c) eqn:Hskipping.
    { apply andb_true_iff in Hskipping as [-> Hspace].
      cbn [starts_space] in Hskip. by rewrite Hskip in Hspace. }
    destruct (punct && is_space c && starts_upper (trimStart r)) eqn:Hcut.
    + apply andb_true_iff in Hcut as [[_ Hspace]%andb_true_iff _].
      rewrite Hspace in Hc. cbn [negb orb] in Hc.
      apply andb_true_iff in Hc as [->%Ascii.eqb_eq Hnext%negb_true_iff].
      destruct (split_from_cons [] false true r) as (first & rest & Hsplit).
      pose proof (IH [] false true Hr (λ _, Hnext)) as Hjoin.
      rewrite Hsplit in *.
      change (String.concat " " (string_of_list_ascii (rev cur) :: first :: rest))
        with (string_of_list_ascii (rev cur) +:+ " "
              +:+ String.concat " " (first :: rest)).
      by rewrite Hjoin.
    + rewrite (IH (c :: cur) (is_terminator c) false Hr) by done.
      cbn [rev]. apply string_of_snoc.
Qed.

(** X14: the split of a page loses nothing but the separators.  The
    fragments of a page, joined by single spaces, are the text of the page
    with its white space collapsed, and in that text every white space is
    one single space. *)
Theorem fragments_join_to_the_page (pageText : string) :
  String.concat " " (fragments pageText) = collapse_whitespace pageText
  ∧ single_spaced (collapse_whitespace pageText) = true.
Proof.
  split; [|apply collapse_single_spaced].
  unfold fragments, split_sentences.
  by rewrite split_from_joined by (done || apply collapse_single_spaced).
Qed.

Lemma starts_upper_head (c : ascii) (r r' : string) :
  starts_upper (String c r) = starts_upper (String c r').
Proof. done. Qed.

(** The fragments read from a state of the split: the first continues
    the fragment being read; a fragment is ended only behind one of
    [.!?]; and a fragment is begun only at a capital letter. *)
Lemma split_from_shape (cur : list ascii) (punct skipping : bool) (s : string) :
  (punct = true → ends_sentence (string_of_list_ascii (rev cur)) = true) →
  ∃ first rest,
    split_from cur punct skipping s = first :: rest
    ∧ Forall (λ x, starts_upper x = true) rest
    ∧ Forall (λ x, ends_sentence x = true) (removelast (first :: rest))
    ∧ (∃ tail, first = string_of_list_ascii (rev cur) +:+ tail)
    ∧ (cur = [] →
       starts_upper first
       = starts_upper (if skipping then trimStart s else s)).
Proof.
  revert cur punct skipping.
  induction s as [|c r IH]; intros cur punct skipping Hpunct;
    cbn [split_from].
  - eexists _, _. split; [done|]. split; [constructor|].
    split; [constructor|]. split; [exists ""; by rewrite append_empty|].
    intros ->. by destruct skipping.
  - destruct (skipping && is_space c) eqn:Hskipping.
    { apply andb_true_iff in Hskipping as [-> Hspace].
      destruct (IH cur false true) as (first & rest & -> & Hup & Hend & Hcur & Hhead);
        [done|].
      eexists _, _. split; [done|]. split; [done|]. split; [done|].
      split; [done|]. intros Hnil. rewrite (Hhead Hnil).
      cbn [trimStart]. by rewrite Hspace. }
    destruct (punct && is_space c && starts_upper (trimStart r)) eqn:Hcut.
    + apply andb_true_iff in Hcut as [[-> _]%andb_true_iff Hupper].
      destruct (IH [] false true) as (first & rest & -> & Hup & Hend & _ & Hhead);
        [done|].
      eexists _, _. split; [done|]. split.
      { constructor; [|done]. by rewrite Hhead. }
      split.
      { change (removelast (string_of_list_ascii (rev cur) :: first :: rest))
          with (string_of_list_ascii (rev cur) :: removelast (first :: rest)).
        constructor; [by apply Hpunct | done]. }
      split; [exists ""; by rewrite append_empty|].
      intros ->. by specialize (Hpunct eq_refl).
    + destruct (IH (c :: cur) (is_terminator c) false)
        as (first & rest & -> & Hup & Hend & [tail ->] & _).
      { intros Hc. unfold ends_sentence.
        by rewrite list_ascii_of_string_of_list_ascii, rev_involutive. }
      eexists _, _. split; [done|]. split; [done|]. split; [done|].
      cbn [rev]. rewrite string_of_snoc. split; [by eexists|].
      intros ->. cbn [rev string_of_list_ascii String.append].
      destruct skipping; [|done]. cbn [andb] in Hskipping.
      cbn [trimStart]. by rewrite Hskipping.
Qed.

(** X15: where a page is cut.  A page gives at least one fragment; every
    fragment but the first begins with a capital letter from A to Z, and
    every fragment but the last ends with a full stop, an exclamation mark
    or a question mark. *)
Theorem fragments_are_cut_between_sentences (pageText : string) :
  ∃ first rest,
    fragments pageText = first :: rest
    ∧ Forall (λ fragment, starts_upper fragment = true) rest
    ∧ Forall (λ fragment, ends_sentence fragment = true)
             (removelast (first :: rest)).
Proof.
  unfold fragments, split_sentences.
  destruct (split_from_shape [] false false (collapse_whitespace pageText))
    as (first & rest & Hsplit & Hup & Hend & _); [done|].
  by exists first, rest.
Qed.

End Fragments.

(** ** The placeholder embedding and the data URL *)

Section Splitting.
Import JsString Server Client.

Lemma split_cons (sep : ascii) (s : string) :
  ∃ w ws, split sep s = w :: ws.
Proof.
  induction s as [|c r (w & ws & IH)]; cbn [split]; [by eexists _, _|].
  destruct (Ascii.eqb c sep); [by eexists _, _|].
  rewrite IH. by eexists _, _.
Qed.

(** X16: the placeholder embedding accounts for every character.  It has
    one entry more than the text has spaces, and its entries and the
    spaces add up to the length of the text. *)
Theorem embedding_counts_every_character (text : string) :
  let spaces :=
    length (List.filter (Ascii.eqb " ") (list_ascii_of_string text)) in
  length (generateEmbedding text) = S spaces
  ∧ sum_list (generateEmbedding text) + spaces = String.length text.
Proof.
  unfold generateEmbedding. cbn zeta.
  induction text as [|c r [IHlen IHsum]]; [done|].
  cbn [split list_ascii_of_string List.filter String.length].
  destruct (Ascii.eqb_spec c " ") as [->|Hc].
  - change (Ascii.eqb " " " ") with true. cbn iota.
    cbn [map length sum_list sum_list_with String.length].
    rewrite IHlen. split; [done|]. unfold id in *. lia.
  - replace (Ascii.eqb " " c) with false
      by (symmetry; apply Ascii.eqb_neq; congruence).
    destruct (split_cons " " r) as (w & ws & Hsplit). rewrite Hsplit in *.
    cbn [map length sum_list sum_list_with String.length] in *.
    split; [done|]. unfold id in *. lia.
Qed.

Lemma split_without (sep : ascii) (s : string) :
  without sep s → split sep s = [s].
Proof.
  unfold without.
  induction s as [|c r IH]; [done|]. cbn [list_ascii_of_string split].
  intros [-> Hr]%Forall_cons. by rewrite IH.
Qed.

Lemma split_at_first (sep : ascii) (a b : string) :
  without sep a → split sep (a +:+ String sep b) = a :: split sep b.
Proof.
  unfold without.
  induction a as [|c r IH]; cbn [list_ascii_of_string].
  - intros _. change ("" +:+ String sep b) with (String sep b).
    cbn [split]. by rewrite Ascii.eqb_refl.
  - intros [Hc Hr]%Forall_cons.
    change (String c r +:+ String sep b) with (String c (r +:+ String sep b)).
    cbn [split]. by rewrite Hc, IH.
Qed.

(** X17: what [convertPDFToBase64] resolves with.  Of a data URL whose
    header holds no comma it gives what follows the first comma, up to the
    next one: the whole payload when the payload holds no comma, as
    base64 does; and of a text without a comma it gives [undefined]. *)
Theorem base64_is_the_payload (header payload : string) :
  without "," header →
  without "," payload →
  base64_of (header +:+ "," +:+ payload) = Some payload
  ∧ base64_of header = None.
Proof.
  intros Hheader Hpayload. unfold base64_of.
  change ("," +:+ payload) with (String "," payload).
  by rewrite split_at_first, !split_without.
Qed.

End Splitting.

Lemma base64_is_the_payload_witness :
  Client.base64_of "data:application/pdf;base64,JVBERi0xLjQK" = Some "JVBERi0xLjQK"
  ∧ Client.base64_of "data:application/pdf;base64" = None.
Proof.
  apply (base64_is_the_payload "data:application/pdf;base64" "JVBERi0xLjQK");
    unfold Client.without; by repeat constructor.
Defined.

(** ** From the summary to the client *)

Section ClientFacts.
Import JsString Json Batch Merge Server.
Context `{TextSplitter} `{ExtractionService}.

(** The outcome of [/api/gemini] in terms of the verdicts of the chunks. *)
Lemma summarize_cases (fullText : string) :
  let chunks := splitText CHUNK_SIZE CHUNK_OVERLAP fullText in
  ∃ outcome,
    summarize fullText = Some outcome
    ∧ match outcome with
      | Summary400 error details =>
          (trim fullText = ""
           ∧ error = "No text content found in PDF"
           ∧ details
             = "The PDF appears to be empty or contains no extractable text")
          ∨ (error = "Failed to process PDF"
             ∧ ∃ i c cause,
                 chunks !! i = Some c
                 ∧ reply_of (respond i c (MAX_RETRIES - 1)) = Failed cause
                 ∧ details = message_of (exhausted cause))
      | Summary200 document =>
          trim fullText ≠ ""
          ∧ document
            = mergeProcessedChunks
                (map props_of (omap delivered (imap verdict chunks)))
      end.
Proof.
  intros chunks. unfold summarize.
  destruct (Nat.eqb_spec (String.length (trim fullText)) 0) as [Hblank|Hblank].
  - eexists. split; [done|]. left. split; [|done].
    by destruct (trim fullText).
  - fold chunks. destruct (process_spec chunks) as (r & -> & Hspec).
    cbn [mbind option_bind].
    destruct (returned r) as [results|e].
    + eexists. split; [done|]. destruct Hspec as (-> & _ & _).
      split; [|done]. intros Htext. by rewrite Htext in Hblank.
    + eexists. split; [done|]. right. split; [done|].
      destruct Hspec as (i & c & Hc & Hv).
      pose proof (verdict_cases i c) as Hcases. rewrite Hv in Hcases.
      destruct Hcases as (cause & Hlast & -> & _). by exists i, c, cause.
Qed.

Lemma relayed_summary (m : merged) :
  Client.extractInstructionsFromPDF (Normal (Client.api_gemini_response (Summary200 m)))
  = if (length m.(steps) =? 0) && (length m.(prerequisites) =? 0)
       && (length m.(warnings) =? 0)
    then Throw (Error ("Gemini API error: "
                       +:+ "No valid instructions could be extracted from the PDF"))
    else Normal {| Client.title :=
                     if String.eqb m.(title) "" then PString "Manual Instructions"
                     else PString m.(title);
                   Client.prerequisites := m.(prerequisites);
                   Client.warnings := m.(warnings);
                   Client.steps := m.(steps) |}.
Proof.
  destruct m as [t p w s].
  unfold Client.extractInstructionsFromPDF, Client.validated, Client.api_gemini_response.
  cbn [mbind completion_bind Client.ok Client.json negb Client.not_an_object truthy orb props_of].
  cbn [title prerequisites warnings steps].
  replace (as_object (Merged t p w s) !! "title") with (Some (PString t))
    by by vm_compute.
  replace (as_object (Merged t p w s) !! "prerequisites") with (Some (PArray p))
    by by vm_compute.
  replace (as_object (Merged t p w s) !! "warnings") with (Some (PArray w))
    by by vm_compute.
  replace (as_object (Merged t p w s) !! "steps") with (Some (PArray s))
    by by vm_compute.
  cbn [Client.array_or_empty Client.steps Client.prerequisites Client.warnings Client.present].
  destruct ((length s =? 0) && (length p =? 0) && (length w =? 0)); [done|].
  by destruct (String.eqb t "").
Qed.



(** A chunk none of whose calls extracts and whose last call is limited
    is given up without a result. *)
Lemma verdict_limited (position : nat) (chunk : string) :
  (∀ a data, a < MAX_RETRIES →
     reply_of (respond position chunk a) ≠ Extracted data) →
  reply_of (respond position chunk (MAX_RETRIES - 1)) = RateLimited →
  verdict position chunk = Normal None.
Proof.
  intros Hnone Hlast. pose proof (verdict_cases position chunk) as Hcases.
  destruct (verdict position chunk) as [[data'|]|e]; [| done |].
  - destruct Hcases as (b & Hb & Hdata' & _). by destruct (Hnone b data' Hb).
  - destruct Hcases as (error' & Hlast' & _). by rewrite Hlast in Hlast'.
Qed.

(** X19: what the user is told when the service limits the rate.  When
    the text is not blank and, for every chunk, no call extracts and the
    last call is answered with status 429, the server answers 200 with a
    document of three empty lists, and [Client.extractInstructionsFromPDF] throws
    that no valid instructions could be extracted from the PDF: the limit
    is not mentioned. *)
Theorem limited_document_reads_as_empty (fullText : string) :
  trim fullText ≠ "" →
  (∀ i c, splitText CHUNK_SIZE CHUNK_OVERLAP fullText !! i = Some c →
     (∀ a data, a < MAX_RETRIES → reply_of (respond i c a) ≠ Extracted data)
     ∧ reply_of (respond i c (MAX_RETRIES - 1)) = RateLimited) →
  ∃ outcome,
    summarize fullText = Some outcome
    ∧ outcome = Summary200 {| title := "Technical Manual Summary";
                              prerequisites := []; warnings := [];
                              steps := [] |}
    ∧ Client.extractInstructionsFromPDF (Normal (Client.api_gemini_response outcome))
      = Throw (Error "Gemini API error: No valid instructions could be extracted from the PDF").
Proof.
  intros Htext Hlimited.
  destruct (summarize_cases fullText) as (outcome & Hout & Hcases).
  exists outcome. split; [done|].
  assert (Hverdict : ∀ i c,
            splitText CHUNK_SIZE CHUNK_OVERLAP fullText !! i = Some c →
            verdict i c = Normal None).
  { intros i c Hc. destruct (Hlimited i c Hc) as [Hnone Hlast].
    by apply verdict_limited. }
  destruct outcome as [error details|m].
  - exfalso. destruct Hcases as [(Hblank & _)|(_ & i & c & cause & Hc & Hlast & _)];
      [done|].
    destruct (Hlimited i c Hc) as [_ Hlimit]. by rewrite Hlast in Hlimit.
  - destruct Hcases as [_ ->].
    assert (Hnone : omap delivered
                      (imap verdict (splitText CHUNK_SIZE CHUNK_OVERLAP fullText))
                    = []).
    { generalize Hverdict.
      generalize (splitText CHUNK_SIZE CHUNK_OVERLAP fullText) as l.
      intros l. generalize (@verdict H0) as f. intros f. revert f.
      induction l as [|c l IH]; intros f Hf; [done|].
      cbn [imap omap list_omap]. rewrite (Hf 0 c) by done. cbn [delivered].
      apply IH. intros i c'. apply (Hf (S i)). }
    rewrite Hnone. split; [done|]. by rewrite relayed_summary.
Qed.

End ClientFacts.

Lemma limited_document_reads_as_empty_witness :
  let text := "Remove the cover. Replace the filter." in
  ∃ outcome,
    Server.summarize (H:=Examples.whole) (H0:=Examples.always_limited) text
    = Some outcome
    ∧ outcome = Server.Summary200
                  {| Merge.title := "Technical Manual Summary";
                     Merge.prerequisites := []; Merge.warnings := [];
                     Merge.steps := [] |}
    ∧ Client.extractInstructionsFromPDF
        (Normal (Client.api_gemini_response outcome))
      = Throw (Error "Gemini API error: No valid instructions could be extracted from the PDF").
Proof.
  intros text.
  apply (limited_document_reads_as_empty (H:=Examples.whole)
           (H0:=Examples.always_limited) text); [done|].
  intros i c _. split; [intros a data _; discriminate | reflexivity].
Defined.

(** ** The store of [server.js] *)

Section ServerJsFacts.
Import ServerJs.

Lemma store_chunks_lookup (chunks : list string) (off : nat)
    (vectorStore : gmap nat entry) (i : nat) :
  foldl (λ store '(index, chunk),
           <[index := {| chunk := chunk;
                         embedding := Server.generateEmbedding chunk |}]> store)
        vectorStore (imap (λ j c, (off + j, c)) chunks) !! i
  = match (if off <=? i then chunks !! (i - off) else None) with
    | Some c => Some {| chunk := c; embedding := Server.generateEmbedding c |}
    | None => vectorStore !! i
    end.
Proof.
  revert off vectorStore.
  induction chunks as [|c chunks IH]; intros off vectorStore.
  - simpl. by destruct (off <=? i).
  - cbn [imap foldl].
    rewrite (imap_ext _ (λ j c, (S off + j, c)) chunks)
      by (intros; simpl; f_equal; lia).
    rewrite IH. rewrite Nat.add_0_r.
    destruct (Nat.leb_spec (S off) i) as [Hi|Hi].
    + destruct (Nat.leb_spec off i); [|lia].
      replace (i - off) with (S (i - S off)) by lia. simpl.
      destruct (chunks !! (i - S off)); [done|].
      apply lookup_insert_ne. lia.
    + destruct (Nat.leb_spec off i) as [Hoff|Hoff].
      * replace i with off by lia. rewrite Nat.sub_diag. simpl.
        apply lookup_insert_eq.
      * apply lookup_insert_ne. lia.
Qed.

(** X20: the store of [server.js] is written position by position and
    never emptied.  After an upload the entry at a position of the new
    document holds its chunk with the placeholder embedding of that chunk,
    and an entry at a position behind the last chunk is what it was before
    the upload: of a longer document uploaded earlier, the entries from
    that position on are kept. *)
Theorem upload_overwrites_by_position `{TextSplitter} (fullText : string)
    (vectorStore : gmap nat entry) (i : nat) :
  upload fullText vectorStore !! i
  = match splitText 1000 200 fullText !! i with
    | Some c => Some {| chunk := c; embedding := Server.generateEmbedding c |}
    | None => vectorStore !! i
    end.
Proof.
  unfold upload, store_chunks.
  rewrite (imap_ext pair (λ j c, (0 + j, c))) by done.
  rewrite store_chunks_lookup. simpl. by rewrite Nat.sub_0_r.
Qed.

End ServerJsFacts.

(** ** The case of letters *)

Section LetterCase.
Import JsString JsNumber JsArray VectorStore.
Context `{RegExpHost}.

Lemma insert_map {A B} (cmp : A → A → number) (cmp' : B → B → number)
    (f : A → B) (x : A) (l : list A) :
  (∀ a b, cmp a b = cmp' (f a) (f b)) →
  map f (insert cmp x l) = insert cmp' (f x) (map f l).
Proof.
  intros Hcmp. induction l as [|y l IH]; [done|]. cbn [insert map].
  rewrite <- Hcmp. destruct (positive (cmp x y)); cbn [map]; by rewrite ?IH.
Qed.

Lemma sort_map {A B} (cmp : A → A → number) (cmp' : B → B → number)
    (f : A → B) (l : list A) :
  (∀ a b, cmp a b = cmp' (f a) (f b)) →
  map f (sort cmp l) = sort cmp' (map f l).
Proof.
  intros Hcmp. unfold sort. induction l as [|x l IH]; [done|].
  cbn [foldr map]. by rewrite (insert_map cmp cmp' f), IH.
Qed.

(** The ranking looks at the scores alone. *)
Lemma ranked_folded (l l' : list scored) (topK : nat) :
  map (λ item, folded (as_hit item)) l = map (λ item, folded (as_hit item)) l' →
  map folded (ranked l topK) = map folded (ranked l' topK).
Proof.
  intros Hl.
  assert (Hranked : ∀ l,
            map folded (ranked l topK)
            = slice 0 topK
                (sort (λ a b : hit, sub b.(h_score) a.(h_score))
                   (List.filter (λ h, positive h.(h_score))
                      (map (λ item, folded (as_hit item)) l)))).
  { intros k. unfold ranked, slice. rewrite map_map, !drop_0.
    rewrite filter_map_commute.
    rewrite <- (sort_map by_score_descending _ (λ item, folded (as_hit item)))
      by done.
    apply (fmap_take (λ item, folded (as_hit item))). }
  by rewrite !Hranked, Hl.
Qed.

Lemma mapM_folded {A B C} (f g : A → completion B) (k : B → C)
    (l l' : list A) :
  length l = length l' →
  (∀ i x x', l !! i = Some x → l' !! i = Some x' →
     (y ← f x; Normal (k y)) = (y ← g x'; Normal (k y))) →
  (ys ← mapM f l; Normal (map k ys)) = (ys ← mapM g l'; Normal (map k ys)).
Proof.
  revert l'. induction l as [|x l IH]; intros [|x' l'] Hlen Hall; try done.
  cbn [mapM]. pose proof (Hall 0 x x' eq_refl eq_refl) as Hhead.
  assert (Htail : (ys ← mapM f l; Normal (map k ys))
                  = (ys ← mapM g l'; Normal (map k ys))).
  { apply IH; [by injection Hlen|]. intros i. apply (Hall (S i)). }
  destruct (f x) as [y|e], (g x') as [y'|e'];
    cbn [mbind completion_bind] in *; try done.
  - injection Hhead as Hhead.
    destruct (mapM f l) as [ys|e], (mapM g l') as [ys'|e'];
      cbn [mbind completion_bind mret completion_ret map] in *; try done.
    injection Htail as Htail. by rewrite Hhead, Htail.
  - by injection Hhead as ->.
Qed.

(** The score of a stored chunk is computed from the texts in lower
    case. *)
Lemma score_chunk_folded (emb emb' : string → list number)
    (entries entries' : list (string * nat)) (terms : list string)
    (i : nat) (e e' : string * nat) :
  map (λ e, (toLowerCase e.1, e.2)) entries
  = map (λ e, (toLowerCase e.1, e.2)) entries' →
  entries !! i = Some e →
  entries' !! i = Some e' →
  (item ← score_chunk (imap (chunk_at emb) entries) terms (chunk_at emb i e);
   Normal (folded (as_hit item)))
  = (item ← score_chunk (imap (chunk_at emb') entries') terms (chunk_at emb' i e');
     Normal (folded (as_hit item))).
Proof.
  intros Hentries He He'.
  assert (Hat : ∀ j x x', entries !! j = Some x → entries' !! j = Some x' →
                  toLowerCase x.1 = toLowerCase x'.1 ∧ x.2 = x'.2).
  { intros j x x' Hx Hx'.
    assert (Hj : map (λ e, (toLowerCase e.1, e.2)) entries !! j
                 = Some (toLowerCase x.1, x.2)) by by rewrite lookup_map, Hx.
    rewrite Hentries, lookup_map, Hx' in Hj. by injection Hj as -> ->. }
  destruct (Hat i e e' He He') as [Htext Hpage].
  unfold score_chunk. rewrite !indexOf_stored by done.
  cbn [text page chunk_at]. rewrite <- Htext, <- Hpage.
  destruct (forEach terms _ (of_nat 0)) as [score|error]; [|done].
  cbn [mbind completion_bind].
  destruct (0 <? Z.of_nat i)%Z eqn:Hi.
  - apply Z.ltb_lt in Hi.
    replace (Z.to_nat (Z.of_nat i - 1)) with (i - 1) by lia.
    rewrite !list_lookup_imap.
    assert (Hlen : length entries = length entries').
    { pose proof (f_equal length Hentries) as Hl. by rewrite !length_map in Hl. }
    destruct (entries !! (i - 1)) as [p|] eqn:Hp.
    + destruct (entries' !! (i - 1)) as [p'|] eqn:Hp'.
      * destruct (Hat (i - 1) p p' Hp Hp') as [Hprev _].
        cbn [fmap option_fmap option_map chunk_at text]. rewrite <- Hprev.
        destruct (forEach terms _ _) as [score'|error]; [|done].
        cbn [mbind completion_bind]. unfold folded, as_hit.
        cbn [s_chunk s_page s_score h_text h_page h_score]. by rewrite Htext.
      * apply lookup_lt_Some in Hp. apply lookup_ge_None in Hp'. lia.
    + destruct (entries' !! (i - 1)) as [p'|] eqn:Hp'; [|done].
      apply lookup_lt_Some in Hp'. apply lookup_ge_None in Hp. lia.
  - cbn [mbind completion_bind]. unfold folded, as_hit.
    cbn [s_chunk s_page s_score h_text h_page h_score]. by rewrite Htext.
Qed.

(** X21: [search] does not tell letters of different case apart.  Over
    chunks added to the initial store, changing the case of letters in the
    query or in the texts of the chunks changes neither whether [search]
    throws, nor the error, nor the hits: the same chunks are returned, in
    the same order and with the same scores. *)
Theorem search_ignores_case (emb emb' : string → list number)
    (entries entries' : list (string * nat)) (query query' : string)
    (topK : nat) :
  toLowerCase query = toLowerCase query' →
  map (λ e, (toLowerCase e.1, e.2)) entries
  = map (λ e, (toLowerCase e.1, e.2)) entries' →
  (hits ← search (stored emb entries) query topK; Normal (map folded hits))
  = (hits ← search (stored emb' entries') query' topK;
     Normal (map folded hits)).
Proof.
  intros Hquery Hentries. unfold search, scoredChunks.
  rewrite !stored_chunks. unfold searchTerms. rewrite <- Hquery.
  fold (searchTerms query).
  assert (Hlen : length entries = length entries').
  { pose proof (f_equal length Hentries) as Hl. by rewrite !length_map in Hl. }
  pose proof (mapM_folded
                (score_chunk (imap (chunk_at emb) entries) (searchTerms query))
                (score_chunk (imap (chunk_at emb') entries') (searchTerms query))
                (λ item, folded (as_hit item))
                (imap (chunk_at emb) entries) (imap (chunk_at emb') entries'))
    as Hscored.
  destruct (mapM _ (imap (chunk_at emb) entries)) as [l|error],
           (mapM _ (imap (chunk_at emb') entries')) as [l'|error'];
    cbn [mbind completion_bind] in *.
  - f_equal. apply ranked_folded.
    assert (Hl : Normal (map (λ item, folded (as_hit item)) l)
                 = Normal (map (λ item, folded (as_hit item)) l')); [|by injection Hl].
    apply Hscored; [by rewrite !length_imap|].
    intros i c c'. rewrite !list_lookup_imap.
    destruct (entries !! i) as [e|] eqn:He; [|done].
    destruct (entries' !! i) as [e'|] eqn:He'; [|done].
    intros [= <-] [= <-]. by apply score_chunk_folded.
  - exfalso. enough (Normal (map (λ item, folded (as_hit item)) l)
                     = @Throw (list hit) error') by done.
    apply Hscored; [by rewrite !length_imap|].
    intros i c c'. rewrite !list_lookup_imap.
    destruct (entries !! i) as [e|] eqn:He; [|done].
    destruct (entries' !! i) as [e'|] eqn:He'; [|done].
    intros [= <-] [= <-]. by apply score_chunk_folded.
  - exfalso. enough (@Throw (list hit) error
                     = Normal (map (λ item, folded (as_hit item)) l')) by done.
    apply Hscored; [by rewrite !length_imap|].
    intros i c c'. rewrite !list_lookup_imap.
    destruct (entries !! i) as [e|] eqn:He; [|done].
    destruct (entries' !! i) as [e'|] eqn:He'; [|done].
    intros [= <-] [= <-]. by apply score_chunk_folded.
  - enough (Hl : @Throw (list hit) error = @Throw (list hit) error')
      by by injection Hl as ->.
    apply Hscored; [by rewrite !length_imap|].
    intros i c c'. rewrite !list_lookup_imap.
    destruct (entries !! i) as [e|] eqn:He; [|done].
    destruct (entries' !! i) as [e'|] eqn:He'; [|done].
    intros [= <-] [= <-]. by apply score_chunk_folded.
Qed.

End LetterCase.

Lemma search_ignores_case_witness :
  (hits ← VectorStore.search (H:=strict_host)
            (VectorStore.stored no_embedding
               [("Check the OIL filter.", 1); ("Close the cover.", 2)])
            "Oil FILTER" 5;
   Normal (map VectorStore.folded hits))
  = (hits ← VectorStore.search (H:=strict_host)
              (VectorStore.stored no_embedding
                 [("check the oil Filter.", 1); ("CLOSE THE COVER.", 2)])
              "oil filter" 5;
     Normal (map VectorStore.folded hits)).
Proof.
  by apply (search_ignores_case (H:=strict_host)).
Defined.
